(** * pkg/dwarf/parseutil.go: DWARF unit-header scanning and primitive I/O

    A shallow embedding of [ReadString], [ReadUintRaw], [WriteUint],
    [ReadDwarfLengthVersion] and [ReadUnitVersions], together with the parts
    of Go's [encoding/binary] and [bytes.Buffer] they call.

    Conventions.
    - A Go [[]byte] (and a Go [string], which is a byte sequence) is a
      [list byte]; [uint8]/[uint32]/[uint64]/[int] values are [Z], with
      the wrap-around of fixed-width arithmetic written out.
    - A Go run-time panic (index or slice bound out of range) is the
      [Panic] outcome of the [result] monad; a Go [error] return value is
      a value of type [error].
    - [map[dwarf.Offset]uint8] is a [gmap Z Z]. *)

From stdpp Require Import base option list gmap.
From Stdlib Require Import ZArith Lia.
From Stdlib Require Import Strings.Byte.
From Equations Require Import Equations.

Local Open Scope Z_scope.

(** ** Go run-time model *)

Inductive runtime_panic : Type :=
| index_out_of_range
| slice_bounds_out_of_range.

Inductive result (A : Type) : Type :=
| Ok (a : A)
| Panic (p : runtime_panic).
Arguments Ok {A} a.
Arguments Panic {A} p.

#[global] Instance result_ret : MRet result := @Ok.
#[global] Instance result_bind : MBind result := λ A B f m,
  match m with
  | Ok a => f a
  | Panic p => Panic p
  end.

(** [len(b)] as a Go [int]. *)
Definition len {A} (b : list A) : Z := Z.of_nat (length b).

(** The numeric value of a byte, [uint64(b)]. *)
Definition u8 (b : byte) : Z := Z.of_N (Byte.to_N b).

(** The conversion [byte(v)] of an unsigned integer: the low eight bits. *)
Definition byte_of (v : Z) : byte :=
  default x00 (Byte.of_N (Z.to_N (v `mod` 256))).

(** [b[i]], read as its numeric value; panics outside [0 <= i < len(b)]. *)
Definition index (b : list byte) (i : Z) : result Z :=
  if decide (0 ≤ i) then
    match b !! Z.to_nat i with
    | Some x => Ok (u8 x)
    | None => Panic index_out_of_range
    end
  else Panic index_out_of_range.

(** [b[n:]]; panics unless [0 <= n <= len(b)]. *)
Definition slice_from (b : list byte) (n : Z) : result (list byte) :=
  if decide (0 ≤ n ≤ len b) then Ok (drop (Z.to_nat n) b)
  else Panic slice_bounds_out_of_range.

(** ** Byte streams and encoding/binary *)

Inductive ByteOrder : Type := LittleEndian | BigEndian.

(** Go [error] values returned by the primitive I/O. *)
Inductive error : Type :=
| io_EOF
| io_ErrUnexpectedEOF
| pointer_size_not_supported (ptrSize : Z).

(** An in-memory byte stream ([bytes.Buffer], [bytes.Reader]) is the list
    of its unread bytes; reading removes a prefix, writing appends. *)
Module io.

(** [io.ReadFull(reader, buf)] with [len(buf) = n]: the bytes read, the
    error, and the reader afterwards. *)
Definition ReadFull (reader : list byte) (n : nat)
  : list byte * option error * list byte :=
  if decide (n ≤ length reader)%nat
  then (take n reader, None, drop n reader)
  else match reader with
       | [] => ([], Some io_EOF, [])
       | _ => (reader, Some io_ErrUnexpectedEOF, [])
       end.

End io.

Module bytes.

(** [Buffer.ReadString(delim)]: the bytes up to and including the
    first [delim]; without one, everything unread and [io.EOF]. The
    buffer is advanced past what is returned. *)
Fixpoint ReadString (buf : list byte) (delim : byte)
  : list byte * option error * list byte :=
  match buf with
  | [] => ([], Some io_EOF, [])
  | b :: buf =>
      if Byte.eqb b delim then ([b], None, buf)
      else let '(line, err, buf) := ReadString buf delim in
           (b :: line, err, buf)
  end.

(** [Buffer.Write(p)] appends and never fails. *)
Definition Write (buf p : list byte) : option error * list byte :=
  (None, buf ++ p).

End bytes.

Module binary.

(** [order.Uint16(b)] *)
Definition Uint16 (order : ByteOrder) (b : list byte) : result Z :=
  match b with
  | b0 :: b1 :: _ =>
      Ok match order with
         | LittleEndian => Z.lor (u8 b0) (u8 b1 ≪ 8)
         | BigEndian => Z.lor (u8 b1) (u8 b0 ≪ 8)
         end
  | _ => Panic index_out_of_range
  end.

(** [order.Uint32(b)] *)
Definition Uint32 (order : ByteOrder) (b : list byte) : result Z :=
  match b with
  | b0 :: b1 :: b2 :: b3 :: _ =>
      Ok match order with
         | LittleEndian =>
             Z.lor (Z.lor (Z.lor (u8 b0) (u8 b1 ≪ 8)) (u8 b2 ≪ 16)) (u8 b3 ≪ 24)
         | BigEndian =>
             Z.lor (Z.lor (Z.lor (u8 b3) (u8 b2 ≪ 8)) (u8 b1 ≪ 16)) (u8 b0 ≪ 24)
         end
  | _ => Panic index_out_of_range
  end.

(** [order.Uint64(b)] *)
Definition Uint64 (order : ByteOrder) (b : list byte) : result Z :=
  match b with
  | b0 :: b1 :: b2 :: b3 :: b4 :: b5 :: b6 :: b7 :: _ =>
      Ok match order with
         | LittleEndian =>
             Z.lor (Z.lor (Z.lor (Z.lor (Z.lor (Z.lor (Z.lor
               (u8 b0) (u8 b1 ≪ 8)) (u8 b2 ≪ 16)) (u8 b3 ≪ 24))
               (u8 b4 ≪ 32)) (u8 b5 ≪ 40)) (u8 b6 ≪ 48)) (u8 b7 ≪ 56)
         | BigEndian =>
             Z.lor (Z.lor (Z.lor (Z.lor (Z.lor (Z.lor (Z.lor
               (u8 b7) (u8 b6 ≪ 8)) (u8 b5 ≪ 16)) (u8 b4 ≪ 24))
               (u8 b3 ≪ 32)) (u8 b2 ≪ 40)) (u8 b1 ≪ 48)) (u8 b0 ≪ 56)
         end
  | _ => Panic index_out_of_range
  end.

(** [order.PutUint32]: the four bytes of [v]. *)
Definition PutUint32 (order : ByteOrder) (v : Z) : list byte :=
  match order with
  | LittleEndian =>
      [byte_of v; byte_of (v ≫ 8); byte_of (v ≫ 16); byte_of (v ≫ 24)]
  | BigEndian =>
      [byte_of (v ≫ 24); byte_of (v ≫ 16); byte_of (v ≫ 8); byte_of v]
  end.

(** [order.PutUint64]: the eight bytes of [v]. *)
Definition PutUint64 (order : ByteOrder) (v : Z) : list byte :=
  match order with
  | LittleEndian =>
      [byte_of v; byte_of (v ≫ 8); byte_of (v ≫ 16); byte_of (v ≫ 24);
       byte_of (v ≫ 32); byte_of (v ≫ 40); byte_of (v ≫ 48); byte_of (v ≫ 56)]
  | BigEndian =>
      [byte_of (v ≫ 56); byte_of (v ≫ 48); byte_of (v ≫ 40); byte_of (v ≫ 32);
       byte_of (v ≫ 24); byte_of (v ≫ 16); byte_of (v ≫ 8); byte_of v]
  end.

(** [binary.Read(reader, order, &n)] for [n] an unsigned integer of
    [size] bytes, initially zero. *)
Definition Read (reader : list byte) (order : ByteOrder) (size : nat)
  : result (Z * option error * list byte) :=
  let '(bs, err, reader) := io.ReadFull reader size in
  match err with
  | Some e => Ok (0, Some e, reader)
  | None =>
      n ← match size with
          | 2%nat => Uint16 order bs
          | 4%nat => Uint32 order bs
          | _ => Uint64 order bs
          end;
      Ok (n, None, reader)
  end.

(** [binary.Write(writer, order, v)] for [v] a [uint32]. *)
Definition Write32 (writer : list byte) (order : ByteOrder) (v : Z)
  : option error * list byte :=
  bytes.Write writer (PutUint32 order v).

(** [binary.Write(writer, order, v)] for [v] a [uint64]. *)
Definition Write64 (writer : list byte) (order : ByteOrder) (v : Z)
  : option error * list byte :=
  bytes.Write writer (PutUint64 order v).

End binary.

(** ** ReadString *)

(** Returns the string, the error and the buffer afterwards. The slice
    [str[:len(str)-1]] is only reached with [err == nil], when [str] ends
    with the terminator ([ReadString_line_nonempty] below). *)
Definition ReadString (data : list byte)
  : list byte * option error * list byte :=
  let '(str, err, data) := bytes.ReadString data x00 in
  match err with
  | Some e => ([], Some e, data)
  | None => (take (length str - 1) str, None, data)
  end.

(** ** ReadUintRaw and WriteUint *)

Definition ReadUintRaw (reader : list byte) (order : ByteOrder) (ptrSize : Z)
  : result (Z * option error * list byte) :=
  if decide (ptrSize = 2) then
    '(n, err, reader) ← binary.Read reader order 2;
    match err with
    | Some e => Ok (0, Some e, reader)
    | None => Ok (n, None, reader)
    end
  else if decide (ptrSize = 4) then
    '(n, err, reader) ← binary.Read reader order 4;
    match err with
    | Some e => Ok (0, Some e, reader)
    | None => Ok (n, None, reader)
    end
  else if decide (ptrSize = 8) then
    '(n, err, reader) ← binary.Read reader order 8;
    match err with
    | Some e => Ok (0, Some e, reader)
    | None => Ok (n, None, reader)
    end
  else Ok (0, Some (pointer_size_not_supported ptrSize), reader).

(** [uint32(data)] keeps the low 32 bits. *)
Definition WriteUint (writer : list byte) (order : ByteOrder) (ptrSize : Z)
    (data : Z) : option error * list byte :=
  if decide (ptrSize = 4) then binary.Write32 writer order (data `mod` 2 ^ 32)
  else if decide (ptrSize = 8) then binary.Write64 writer order data
  else (Some (pointer_size_not_supported ptrSize), writer).

(** ** ReadDwarfLengthVersion *)

(** The four results [(length, dwarf64, version, byteOrder)]. *)
Definition ReadDwarfLengthVersion (data : list byte)
  : result (Z * bool * Z * ByteOrder) :=
  if decide (len data < 4) then Ok (0, false, 0, LittleEndian) else
  lengthfield ← binary.Uint32 LittleEndian data;
  let '(dwarf64, voff) :=
    if decide (lengthfield = 0xFFFFFFFF) then (true, 12) else (false, 4) in
  if decide (voff + 1 >= len data) then Ok (0, false, 0, LittleEndian) else
  x ← index data voff;
  y ← index data (voff + 1);
  let '(version, byteOrder) :=
    if decide (x = 0 ∧ y = 0) then (0, LittleEndian)
    else if decide (x = 0) then (y, BigEndian)
    else if decide (y = 0) then (x, LittleEndian)
    else (* default: fallthrough into the first case *) (0, LittleEndian) in
  length ← (if dwarf64 : bool
            then data4 ← slice_from data 4; binary.Uint64 byteOrder data4
            else binary.Uint32 byteOrder data);
  Ok (length, dwarf64, version, byteOrder).

(** ** ReadUnitVersions *)

Definition _DW_UT_compile : Z := 1.
Definition _DW_UT_type : Z := 2.
Definition _DW_UT_partial : Z := 3.
Definition _DW_UT_skeleton : Z := 4.
Definition _DW_UT_split_compile : Z := 5.
Definition _DW_UT_split_type : Z := 6.

(** [dwarf.Offset] is a [uint32]: conversions and sums are reduced modulo
    [2^32]. *)
Definition Offset (v : Z) : Z := v `mod` 2 ^ 32.

(** The inner [switch unitType]; a unit type matching no case leaves
    [headerSize] at the zero value of its declaration. *)
Definition unitType_headerSize (unitType secoffsz : Z) : Z :=
  if decide (unitType = _DW_UT_compile ∨ unitType = _DW_UT_partial)
  then 4 + secoffsz
  else if decide (unitType = _DW_UT_skeleton ∨ unitType = _DW_UT_split_compile)
  then 4 + secoffsz + 8
  else if decide (unitType = _DW_UT_type ∨ unitType = _DW_UT_split_type)
  then 4 + secoffsz + 8 + secoffsz
  else 0.

(** The [switch version], on the data left after the length field. *)
Definition headerSize (version secoffsz : Z) (data : list byte) : result Z :=
  if decide (version = 2 ∨ version = 3 ∨ version = 4)
  then Ok (3 + secoffsz)
  else unitType ← index data 2; Ok (unitType_headerSize unitType secoffsz).

(** One pass through the body of the [for] loop, on the loop variables
    [(data, off, r)]. *)
Definition unit_step (data : list byte) (off : Z) (r : gmap Z Z)
  : result (list byte * Z * gmap Z Z) :=
  '(length, dwarf64, version, _) ← ReadDwarfLengthVersion data;
  data ← slice_from data 4;
  let off := Offset (off + 4) in
  let secoffsz := 4 in
  '(off, secoffsz, data) ←
    (if dwarf64 : bool
     then data8 ← slice_from data 8; Ok (Offset (off + 8), 8, data8)
     else Ok (off, secoffsz, data));
  hs ← headerSize version secoffsz data;
  let r := <[Offset (off + Offset hs) := version]> r in
  data ← slice_from data length;
  let off := Offset (off + Offset length) in
  Ok (data, off, r).

(** Case analysis on a value that keeps the equation with the analysed
    term, for the termination argument of the loop. *)
Definition inspect {A} (a : A) : {b : A | a = b} := exist _ a eq_refl.

(** The [for len(data) > 0] loop. Every pass that does not panic leaves
    strictly less data, which is the measure of the recursion. *)
Equations ReadUnitVersions_loop (data : list byte) (off : Z) (r : gmap Z Z)
  : result (gmap Z Z) by wf (length data) lt :=
  ReadUnitVersions_loop [] off r := Ok r;
  ReadUnitVersions_loop data off r with inspect (unit_step data off r) := {
    | exist _ (Ok (data', off', r')) H => ReadUnitVersions_loop data' off' r';
    | exist _ (Panic p) _ => Panic p }.
Next Obligation.
  change (S (length l)) with (length (b :: l)).
  clear ReadUnitVersions_loop. revert H. generalize (b :: l). clear b l.
  intros data H. unfold unit_step in H.
  destruct (ReadDwarfLengthVersion data) as [[[[n d] v] o]|];
    simpl in H; [|discriminate H].
  destruct (slice_from data 4) as [data4|] eqn:E4;
    simpl in H; [|discriminate H].
  unfold slice_from in E4.
  destruct (decide (0 ≤ 4 ≤ len data)) as [H4|]; [|discriminate E4].
  injection E4 as <-.
  enough (length data' ≤ length (drop (Z.to_nat 4) data))%nat
    by (rewrite length_drop in *; unfold len in H4; lia).
  revert H. generalize (drop (Z.to_nat 4) data). intros data4 H.
  assert (∀ o s (d1 : list byte),
    (headerSize v s d1 ≫= λ hs, slice_from d1 n ≫= λ d2,
       Ok (d2, Offset (o + Offset n), <[Offset (o + Offset hs) := v]> r))
      = Ok (data', off', r') →
    (length data' ≤ length d1)%nat) as Hrest.
  { intros o' s d1 H1.
    destruct (headerSize v s d1); simpl in H1; [|discriminate H1].
    destruct (slice_from d1 n) as [d2|] eqn:E2; simpl in H1; [|discriminate H1].
    injection H1 as <- _ _. unfold slice_from in E2.
    destruct (decide _); [|discriminate E2].
    injection E2 as <-. rewrite length_drop. lia. }
  destruct d; simpl in H.
  - destruct (slice_from data4 8) as [data8|] eqn:E8;
      simpl in H; [|discriminate H].
    apply Hrest in H. unfold slice_from in E8.
    destruct (decide _); [|discriminate E8].
    injection E8 as <-. rewrite length_drop in H. lia.
  - by apply Hrest in H.
Qed.

Definition ReadUnitVersions (data : list byte) : result (gmap Z Z) :=
  ReadUnitVersions_loop data 0 ∅.

(** ** Auxiliary definitions for the statements *)

(** The version-field offset chosen from the leading length word. *)
Definition voff_of (lengthfield : Z) : Z :=
  if decide (lengthfield = 0xFFFFFFFF) then 12 else 4.

(** The outcome of the [switch] on the two version bytes. *)
Definition version_byteOrder (x y : Z) : Z * ByteOrder :=
  if decide (x = 0 ∧ y = 0) then (0, LittleEndian)
  else if decide (x = 0) then (y, BigEndian)
  else if decide (y = 0) then (x, LittleEndian)
  else (0, LittleEndian).

(** Bytes taken by the length field, and the section-offset width. *)
Definition length_field_size (dwarf64 : bool) : Z := if dwarf64 then 12 else 4.
Definition section_offset_size (dwarf64 : bool) : Z := if dwarf64 then 8 else 4.

(** The loop variables during a scan of [B]: [data] is a suffix of [B],
    keys are 32-bit offsets, and, as long as offsets cannot wrap, [off] is
    the position of [data] in [B] and no key exceeds [len B + 25]. *)
Definition scan_invariant (B data : list byte) (off : Z) (r : gmap Z Z) : Prop :=
  len data ≤ len B ∧
  (∀ k v, r !! k = Some v → 0 ≤ k < 2 ^ 32) ∧
  (len B + 25 < 2 ^ 32 →
   off = len B - len data ∧
   ∀ k v, r !! k = Some v → 4 ≤ k ≤ len B + 25).

(** [u] is exactly one unit: its version field lies inside it, its length
    field announces exactly the bytes that follow the length field, and the
    header size [hs] can be computed from it. [key] is the distance from
    the start of the unit to the end of its header, and [version] its
    version. *)
Definition whole_unit (u : list byte) (key version : Z) : Prop :=
  ∃ lengthfield length dwarf64 byteOrder hs,
    binary.Uint32 LittleEndian u = Ok lengthfield ∧
    voff_of lengthfield + 1 < len u ∧
    ReadDwarfLengthVersion u = Ok (length, dwarf64, version, byteOrder) ∧
    len u = length_field_size dwarf64 + length ∧
    headerSize version (section_offset_size dwarf64)
      (drop (Z.to_nat (length_field_size dwarf64)) u) = Ok hs ∧
    key = length_field_size dwarf64 + hs.

(** The bytes of a sequence of units, each given with its key and version. *)
Definition units_bytes (us : list (list byte * Z * Z)) : list byte :=
  concat (map (λ x, x.1.1) us).

(** The entries of a sequence of units laid out from offset [off] on,
    added to [r] unit by unit. *)
Fixpoint units_map (us : list (list byte * Z * Z)) (off : Z) (r : gmap Z Z)
  : gmap Z Z :=
  match us with
  | [] => r
  | (u, key, version) :: us =>
      units_map us (Offset (off + len u)) (<[Offset (off + key) := version]> r)
  end.

(** The number written by a byte sequence, least significant byte first. *)
Fixpoint le_value (bs : list byte) : Z :=
  match bs with
  | [] => 0
  | b :: bs => u8 b + 256 * le_value bs
  end.

(** ** Inputs *)

(** Scenario 2: one DWARF 4 unit with a 32-bit length of 7. *)
Definition scenario2 : list byte :=
  [x07; x00; x00; x00; x04; x00; x00; x00; x00; x00; x00].

(** Scenario 3: two consecutive DWARF 4 units of length 7. *)
Definition scenario3 : list byte := scenario2 ++ scenario2.

(** Scenario 6: one big-endian DWARF 3 unit of length 6. *)
Definition scenario6 : list byte :=
  [x00; x00; x00; x06; x00; x03; x00; x00; x00; x00].

(** Scenario 4: one DWARF 5 compile unit with a 32-bit length of 8. *)
Definition scenario4 : list byte :=
  [x08; x00; x00; x00; x05; x00; x01; x00; x00; x00; x00; x00].

(** Scenario 5: the sentinel, the 8-byte length 11, and an 11-byte payload
    made of the version bytes [04 00] and nine bytes of filler. *)
Definition scenario5 (filler : list byte) : list byte :=
  [xff; xff; xff; xff; x0b; x00; x00; x00; x00; x00; x00; x00; x04; x00]
    ++ filler.

(** The sentinel followed by the 8-byte length and a single byte: the
    version field is cut short. *)
Definition sentinel_cut_short : list byte :=
  [xff; xff; xff; xff; x0b; x00; x00; x00; x00; x00; x00; x00; x04].

(** A DWARF 5 unit of unit type 0 and length 3, followed by a DWARF 4 unit
    of length 7. *)
Definition unit_type_zero_then_dwarf4 : list byte :=
  [x03; x00; x00; x00; x05; x00; x00;
   x07; x00; x00; x00; x04; x00; x00; x00; x00; x00; x00].

(** * Properties *)

(** ** Inversion of the result monad, and the loop unfolded *)

Lemma bind_Ok_inv {A B} (m : result A) (f : A → result B) b :
  m ≫= f = Ok b → ∃ a, m = Ok a ∧ f a = Ok b.
Proof. destruct m as [a|p]; simpl; [eauto | discriminate]. Qed.

Lemma slice_from_Ok_inv b n b' :
  slice_from b n = Ok b' → 0 ≤ n ≤ len b ∧ b' = drop (Z.to_nat n) b.
Proof. unfold slice_from. case_decide; [|discriminate]. by intros [= <-]. Qed.

Lemma unit_step_shorter data off r data' off' r' :
  unit_step data off r = Ok (data', off', r') →
  (length data' < length data)%nat.
Proof.
  unfold unit_step. intros H.
  apply bind_Ok_inv in H as ([[[l d] v] o] & _ & H).
  apply bind_Ok_inv in H as (d4 & [H4 ->]%slice_from_Ok_inv & H).
  apply bind_Ok_inv in H as ([[o5 s5] d5] & Hd & H).
  apply bind_Ok_inv in H as (hs & _ & H).
  apply bind_Ok_inv in H as (d6 & [H6 ->]%slice_from_Ok_inv & H).
  injection H as <- _ _.
  assert (length d5 ≤ length (drop (Z.to_nat 4) data))%nat as Hle.
  { destruct d.
    - apply bind_Ok_inv in Hd as (d8 & [H8 ->]%slice_from_Ok_inv & Hd).
      injection Hd as _ _ <-. rewrite length_drop. lia.
    - injection Hd as _ _ <-. lia. }
  rewrite length_drop in *. unfold len in *. lia.
Qed.

Lemma ReadUnitVersions_loop_cons b l off r :
  ReadUnitVersions_loop (b :: l) off r =
  match unit_step (b :: l) off r with
  | Ok (data', off', r') => ReadUnitVersions_loop data' off' r'
  | Panic p => Panic p
  end.
Proof.
  simp ReadUnitVersions_loop. unfold inspect.
  generalize (@eq_refl _ (unit_step (b :: l) off r)).
  generalize (unit_step (b :: l) off r) at 2 4 5.
  intros [[[data' off'] r']|p] H; reflexivity.
Qed.

(** ** Bytes, indexing and slicing *)

Lemma u8_range b : 0 ≤ u8 b < 256.
Proof. unfold u8. pose proof (Byte.to_N_bounded b). lia. Qed.

Lemma index_Ok_inv b i x :
  index b i = Ok x → 0 ≤ i < len b ∧ ∃ c, b !! Z.to_nat i = Some c ∧ x = u8 c.
Proof.
  unfold index. case_decide as Hi; [|discriminate].
  destruct (b !! Z.to_nat i) as [c|] eqn:Hc; [|discriminate].
  intros [= <-]. apply lookup_lt_Some in Hc as Hlt.
  unfold len. split; [lia | eauto].
Qed.

Lemma index_in_range b i : 0 ≤ i < len b → ∃ x, index b i = Ok x.
Proof.
  intros [Hi Hlt]. unfold index. rewrite decide_True by done.
  destruct (lookup_lt_is_Some_2 b (Z.to_nat i)) as [c ->]; [unfold len in Hlt; lia|].
  eauto.
Qed.

Lemma index_out_of_range_iff b i :
  index b i = Panic index_out_of_range ↔ ¬ (0 ≤ i < len b).
Proof.
  split.
  - intros H Hr. apply index_in_range in Hr as [x Hx]. congruence.
  - intros Hr. unfold index. case_decide as Hi; [|done].
    destruct (b !! Z.to_nat i) as [c|] eqn:Hc; [|done].
    apply lookup_lt_Some in Hc. unfold len in Hr. lia.
Qed.

Lemma index_range b i x : index b i = Ok x → 0 ≤ x < 256.
Proof. intros (_ & c & _ & ->)%index_Ok_inv. apply u8_range. Qed.

Lemma slice_from_in_range b n :
  0 ≤ n ≤ len b → slice_from b n = Ok (drop (Z.to_nat n) b).
Proof. intros. unfold slice_from. by rewrite decide_True. Qed.

Lemma slice_from_out_of_range b n :
  ¬ (0 ≤ n ≤ len b) → slice_from b n = Panic slice_bounds_out_of_range.
Proof. intros. unfold slice_from. by rewrite decide_False. Qed.

Lemma len_drop {A} (b : list A) n :
  0 ≤ n ≤ len b → len (drop (Z.to_nat n) b) = len b - n.
Proof. unfold len. rewrite length_drop. lia. Qed.

Lemma len_nonneg {A} (b : list A) : 0 ≤ len b.
Proof. unfold len. lia. Qed.

Lemma Uint32_Ok_inv order b v :
  binary.Uint32 order b = Ok v → 4 ≤ len b.
Proof.
  destruct b as [|b0 [|b1 [|b2 [|b3 b]]]]; try discriminate.
  intros _. unfold len. simpl. lia.
Qed.

Lemma Uint32_in_range order b :
  4 ≤ len b → ∃ v, binary.Uint32 order b = Ok v.
Proof.
  destruct b as [|b0 [|b1 [|b2 [|b3 b]]]]; unfold len; simpl; try lia.
  eauto.
Qed.

Lemma Uint64_in_range order b :
  8 ≤ len b → ∃ v, binary.Uint64 order b = Ok v.
Proof.
  destruct b as [|b0 [|b1 [|b2 [|b3 [|b4 [|b5 [|b6 [|b7 b]]]]]]]];
    unfold len; simpl; try lia.
  eauto.
Qed.

(** ** ReadDwarfLengthVersion: case analysis *)

Lemma ReadDwarfLengthVersion_short data :
  len data < 4 → ReadDwarfLengthVersion data = Ok (0, false, 0, LittleEndian).
Proof. intros. unfold ReadDwarfLengthVersion. by rewrite decide_True. Qed.

Lemma ReadDwarfLengthVersion_no_version data lengthfield :
  binary.Uint32 LittleEndian data = Ok lengthfield →
  voff_of lengthfield + 1 >= len data →
  ReadDwarfLengthVersion data = Ok (0, false, 0, LittleEndian).
Proof.
  intros Hlf Hv. apply Uint32_Ok_inv in Hlf as H4.
  unfold ReadDwarfLengthVersion. rewrite decide_False by lia.
  rewrite Hlf. simpl. unfold voff_of in Hv.
  destruct (decide (lengthfield = 0xFFFFFFFF)); by rewrite decide_True.
Qed.

Lemma ReadDwarfLengthVersion_version data lengthfield x y :
  binary.Uint32 LittleEndian data = Ok lengthfield →
  index data (voff_of lengthfield) = Ok x →
  index data (voff_of lengthfield + 1) = Ok y →
  ReadDwarfLengthVersion data =
    (length ← (if decide (lengthfield = 0xFFFFFFFF)
               then data4 ← slice_from data 4;
                    binary.Uint64 (version_byteOrder x y).2 data4
               else binary.Uint32 (version_byteOrder x y).2 data);
     Ok (length, bool_decide (lengthfield = 0xFFFFFFFF),
         (version_byteOrder x y).1, (version_byteOrder x y).2)).
Proof.
  intros Hlf Hx Hy. apply Uint32_Ok_inv in Hlf as H4.
  apply index_Ok_inv in Hy as Hr. destruct Hr as [Hr _].
  unfold ReadDwarfLengthVersion. rewrite decide_False by lia.
  rewrite Hlf. simpl. unfold voff_of in *.
  destruct (decide (lengthfield = 0xFFFFFFFF)) as [Hs|Hs].
  - rewrite decide_False by lia. rewrite Hx, Hy. simpl.
    rewrite bool_decide_eq_true_2 by done.
    unfold version_byteOrder. repeat case_decide; reflexivity.
  - rewrite decide_False by lia. rewrite Hx, Hy. simpl.
    rewrite bool_decide_eq_false_2 by done.
    unfold version_byteOrder. repeat case_decide; reflexivity.
Qed.

(** The function itself never panics: every index and slice it takes is
    guarded by the two length tests. *)
Lemma ReadDwarfLengthVersion_total data :
  ∃ length dwarf64 version byteOrder,
    ReadDwarfLengthVersion data = Ok (length, dwarf64, version, byteOrder).
Proof.
  destruct (decide (len data < 4)) as [Hs|Hs].
  { rewrite ReadDwarfLengthVersion_short by done. eauto. }
  destruct (Uint32_in_range LittleEndian data) as [lf Hlf]; [lia|].
  destruct (decide (voff_of lf + 1 >= len data)) as [Hv|Hv].
  { erewrite ReadDwarfLengthVersion_no_version by done. eauto. }
  assert (0 ≤ voff_of lf) by (unfold voff_of; case_decide; lia).
  destruct (index_in_range data (voff_of lf)) as [x Hx]; [lia|].
  destruct (index_in_range data (voff_of lf + 1)) as [y Hy]; [lia|].
  rewrite (ReadDwarfLengthVersion_version _ _ _ _ Hlf Hx Hy).
  unfold voff_of in Hv. case_decide.
  - rewrite slice_from_in_range by lia. simpl.
    destruct (Uint64_in_range (version_byteOrder x y).2 (drop (Z.to_nat 4) data))
      as [v ->]; [rewrite len_drop; lia|].
    simpl. eauto.
  - destruct (Uint32_in_range (version_byteOrder x y).2 data) as [v ->]; [lia|].
    simpl. eauto.
Qed.

(** C7. [ReadDwarfLengthVersion] returns the defaults (length 0, 32-bit
    encoding, version 0, little-endian) when the input holds fewer than 4
    bytes, and also when the position [voff] of the version byte (4, or 12
    after the 64-bit sentinel) satisfies [voff + 1 >= len(data)]. *)
Theorem ReadDwarfLengthVersion_defaults (data : list byte) :
  (len data < 4 →
   ReadDwarfLengthVersion data = Ok (0, false, 0, LittleEndian)) ∧
  (∀ lengthfield voff,
     binary.Uint32 LittleEndian data = Ok lengthfield →
     voff = (if decide (lengthfield = 0xFFFFFFFF) then 12 else 4) →
     voff + 1 >= len data →
     ReadDwarfLengthVersion data = Ok (0, false, 0, LittleEndian)).
Proof.
  split.
  - apply ReadDwarfLengthVersion_short.
  - intros lengthfield voff Hlf -> Hv.
    by apply (ReadDwarfLengthVersion_no_version data lengthfield).
Qed.

Lemma ReadDwarfLengthVersion_defaults_witness :
  ReadDwarfLengthVersion [x07; x00] = Ok (0, false, 0, LittleEndian) ∧
  ReadDwarfLengthVersion [xff; xff; xff; xff; x0b; x00; x00; x00;
                          x00; x00; x00; x00; x04]
    = Ok (0, false, 0, LittleEndian).
Proof.
  split.
  - apply (proj1 (ReadDwarfLengthVersion_defaults [x07; x00])).
    vm_compute. reflexivity.
  - apply (proj2 (ReadDwarfLengthVersion_defaults
             [xff; xff; xff; xff; x0b; x00; x00; x00; x00; x00; x00; x00; x04])
             0xFFFFFFFF 12).
    + vm_compute. reflexivity.
    + reflexivity.
    + vm_compute. discriminate.
Defined.

(** C2. Whenever the two version bytes [(x, y)] after the length field can
    be read, version and byte order follow the table: [x = 0, y <> 0] gives
    [y], big-endian; [y = 0, x <> 0] gives [x], little-endian; both zero
    and both non-zero give version 0, little-endian. *)
Theorem ReadDwarfLengthVersion_heuristic
    (data : list byte) (lengthfield voff x y : Z) :
  binary.Uint32 LittleEndian data = Ok lengthfield →
  voff = (if decide (lengthfield = 0xFFFFFFFF) then 12 else 4) →
  index data voff = Ok x →
  index data (voff + 1) = Ok y →
  ∃ length dwarf64 version byteOrder,
    ReadDwarfLengthVersion data = Ok (length, dwarf64, version, byteOrder) ∧
    (x = 0 ∧ y ≠ 0 → version = y ∧ byteOrder = BigEndian) ∧
    (y = 0 ∧ x ≠ 0 → version = x ∧ byteOrder = LittleEndian) ∧
    (x = 0 ∧ y = 0 → version = 0 ∧ byteOrder = LittleEndian) ∧
    (x ≠ 0 ∧ y ≠ 0 → version = 0 ∧ byteOrder = LittleEndian).
Proof.
  intros Hlf -> Hx Hy.
  destruct (ReadDwarfLengthVersion_total data) as (l & d & v & o & Hr).
  exists l, d, v, o. split; [done|].
  rewrite (ReadDwarfLengthVersion_version _ _ _ _ Hlf Hx Hy) in Hr.
  apply bind_Ok_inv in Hr as (l' & _ & [= _ _ <- <-]).
  unfold version_byteOrder.
  repeat case_decide; simpl; intuition congruence.
Qed.

Lemma ReadDwarfLengthVersion_heuristic_witness :
  ∃ length dwarf64 version byteOrder,
    ReadDwarfLengthVersion [x00; x00; x00; x06; x00; x03; x00]
      = Ok (length, dwarf64, version, byteOrder) ∧
    (0 = 0 ∧ 3 ≠ 0 → version = 3 ∧ byteOrder = BigEndian) ∧
    (3 = 0 ∧ 0 ≠ 0 → version = 0 ∧ byteOrder = LittleEndian) ∧
    (0 = 0 ∧ 3 = 0 → version = 0 ∧ byteOrder = LittleEndian) ∧
    (0 ≠ 0 ∧ 3 ≠ 0 → version = 0 ∧ byteOrder = LittleEndian).
Proof.
  apply (ReadDwarfLengthVersion_heuristic
           [x00; x00; x00; x06; x00; x03; x00] 0x06000000 4 0 3);
    vm_compute; reflexivity.
Defined.

(** C4, as the code has it. [ReadDwarfLengthVersion] reports 64-bit
    encoding exactly when the leading word, read little-endian, is
    [0xFFFFFFFF] and the version field is within the buffer (at least 14
    bytes); the length is then decoded from the 8 bytes after the sentinel
    in the deduced byte order. With another leading word and at least 6
    bytes, the length is decoded from the leading 4 bytes in that order.
    On scenario 5, whose 11-byte payload is the version bytes and nine
    filler bytes, the scan returns exactly [{23 -> 4}]. *)
Theorem ReadDwarfLengthVersion_dwarf64
    (data : list byte) (lengthfield length version : Z) (dwarf64 : bool)
    (byteOrder : ByteOrder) :
  binary.Uint32 LittleEndian data = Ok lengthfield →
  ReadDwarfLengthVersion data = Ok (length, dwarf64, version, byteOrder) →
  (dwarf64 = true ↔ lengthfield = 0xFFFFFFFF ∧ 14 ≤ len data) ∧
  (dwarf64 = true →
   ∃ data4, slice_from data 4 = Ok data4 ∧
            binary.Uint64 byteOrder data4 = Ok length) ∧
  (lengthfield ≠ 0xFFFFFFFF → 6 ≤ len data →
   binary.Uint32 byteOrder data = Ok length) ∧
  (∀ filler, len filler = 9 →
     ReadUnitVersions (scenario5 filler) = Ok {[ 23 := 4 ]}).
Proof.
  intros Hlf Hr.
  assert (0 ≤ voff_of lengthfield) as H0 by (unfold voff_of; case_decide; lia).
  split_and!.
  - destruct (decide (voff_of lengthfield + 1 >= len data)) as [Hv|Hv].
    { rewrite (ReadDwarfLengthVersion_no_version _ _ Hlf Hv) in Hr.
      injection Hr as <- <- <- <-. unfold voff_of in Hv.
      split; [done|]. intros [-> ?]. rewrite decide_True in Hv by done. lia. }
    destruct (index_in_range data (voff_of lengthfield)) as [x Hx]; [lia|].
    destruct (index_in_range data (voff_of lengthfield + 1)) as [y Hy]; [lia|].
    rewrite (ReadDwarfLengthVersion_version _ _ _ _ Hlf Hx Hy) in Hr.
    apply bind_Ok_inv in Hr as (l' & _ & [= _ <- _ _]).
    rewrite bool_decide_eq_true. unfold voff_of in Hv.
    split; [|tauto]. intros Hs. rewrite decide_True in Hv by done. lia.
  - intros ->.
    destruct (decide (voff_of lengthfield + 1 >= len data)) as [Hv|Hv].
    { by rewrite (ReadDwarfLengthVersion_no_version _ _ Hlf Hv) in Hr. }
    destruct (index_in_range data (voff_of lengthfield)) as [x Hx]; [lia|].
    destruct (index_in_range data (voff_of lengthfield + 1)) as [y Hy]; [lia|].
    rewrite (ReadDwarfLengthVersion_version _ _ _ _ Hlf Hx Hy) in Hr.
    apply bind_Ok_inv in Hr as (l' & Hl & [= <- Hd _ <-]).
    apply bool_decide_eq_true in Hd. rewrite decide_True in Hl by done.
    apply bind_Ok_inv in Hl as (data4 & ? & ?). eauto.
  - intros Hs H6.
    assert (voff_of lengthfield = 4) as Hv
      by (unfold voff_of; by rewrite decide_False).
    destruct (index_in_range data (voff_of lengthfield)) as [x Hx]; [lia|].
    destruct (index_in_range data (voff_of lengthfield + 1)) as [y Hy]; [lia|].
    rewrite (ReadDwarfLengthVersion_version _ _ _ _ Hlf Hx Hy) in Hr.
    apply bind_Ok_inv in Hr as (l' & Hl & [= <- _ _ <-]).
    by rewrite decide_False in Hl.
  - intros filler Hf. unfold len in Hf.
    do 9 (destruct filler as [|? filler]; [simpl in Hf; lia|]).
    destruct filler; [|simpl in Hf; lia].
    vm_compute. reflexivity.
Qed.

Lemma ReadDwarfLengthVersion_dwarf64_witness :
  (true = true ↔ 0xFFFFFFFF = 0xFFFFFFFF ∧ 14 ≤ len (scenario5 (replicate 9 x00))) ∧
  (true = true →
   ∃ data4, slice_from (scenario5 (replicate 9 x00)) 4 = Ok data4 ∧
            binary.Uint64 LittleEndian data4 = Ok 11) ∧
  (0xFFFFFFFF ≠ 0xFFFFFFFF → 6 ≤ len (scenario5 (replicate 9 x00)) →
   binary.Uint32 LittleEndian (scenario5 (replicate 9 x00)) = Ok 11) ∧
  (∀ filler, len filler = 9 →
     ReadUnitVersions (scenario5 filler) = Ok {[ 23 := 4 ]}).
Proof.
  apply (ReadDwarfLengthVersion_dwarf64
           (scenario5 (replicate 9 x00)) 0xFFFFFFFF 11 4 true LittleEndian);
    vm_compute; reflexivity.
Defined.

(** C4 as stated fails on a buffer that starts with the sentinel but ends
    inside the version field: the leading word is [0xFFFFFFFF], yet the
    function reports 32-bit encoding and length 0, not the length 11 held
    by the eight bytes after the sentinel. *)
Lemma dwarf64_sentinel_cut_short :
  binary.Uint32 LittleEndian sentinel_cut_short = Ok 0xFFFFFFFF ∧
  (slice_from sentinel_cut_short 4 ≫= binary.Uint64 LittleEndian) = Ok 11 ∧
  ReadDwarfLengthVersion sentinel_cut_short = Ok (0, false, 0, LittleEndian).
Proof. vm_compute. done. Qed.

(** Scenario 5 read with eleven filler bytes after the version bytes: the
    payload length 11 leaves two bytes over, on which the next pass slices
    [data[4:]] out of range. *)
Example scenario5_eleven_filler_bytes :
  ReadUnitVersions (scenario5 (replicate 11 x00))
    = Panic slice_bounds_out_of_range.
Proof. vm_compute. reflexivity. Qed.

(** ** The loop body *)

Lemma Offset_range v : 0 ≤ Offset v < 2 ^ 32.
Proof. unfold Offset. apply Z.mod_pos_bound. lia. Qed.

Lemma Offset_add_l a b : Offset (Offset a + b) = Offset (a + b).
Proof. unfold Offset. apply Zplus_mod_idemp_l. Qed.

Lemma Offset_add_r a b : Offset (a + Offset b) = Offset (a + b).
Proof. unfold Offset. apply Zplus_mod_idemp_r. Qed.

Lemma Offset_small v : 0 ≤ v < 2 ^ 32 → Offset v = v.
Proof. unfold Offset. apply Z.mod_small. Qed.

Lemma Offset_add_4_8 off x :
  Offset (Offset (Offset (off + 4) + 8) + Offset x) = Offset (off + 12 + x).
Proof.
  rewrite Offset_add_l, Offset_add_r.
  replace (Offset (off + 4) + 8 + x) with (Offset (off + 4) + (8 + x)) by lia.
  rewrite Offset_add_l. f_equal. lia.
Qed.

(** The body of the loop in terms of the four values decoded at its top:
    slice off the length field, compute the header size, record the entry,
    skip the payload. *)
Lemma unit_step_eq data off r length dwarf64 version byteOrder :
  ReadDwarfLengthVersion data = Ok (length, dwarf64, version, byteOrder) →
  unit_step data off r =
    (data1 ← slice_from data (length_field_size dwarf64);
     hs ← headerSize version (section_offset_size dwarf64) data1;
     data2 ← slice_from data1 length;
     Ok (data2, Offset (off + length_field_size dwarf64 + length),
         <[Offset (off + length_field_size dwarf64 + hs) := version]> r)).
Proof.
  intros Hr. unfold unit_step. rewrite Hr. simpl.
  pose proof (len_nonneg data).
  destruct dwarf64; simpl.
  - destruct (decide (12 ≤ len data)) as [H12|H12].
    + rewrite (slice_from_in_range data 4), (slice_from_in_range data 12) by lia.
      simpl. rewrite slice_from_in_range by (rewrite len_drop; lia).
      simpl. rewrite drop_drop.
      replace (Z.to_nat 4 + Z.to_nat 8)%nat with (Z.to_nat 12) by lia.
      destruct (headerSize _ _ _) as [hs|]; [simpl|done].
      destruct (slice_from _ _); [simpl|done].
      by rewrite !Offset_add_4_8.
    + rewrite (slice_from_out_of_range data 12) by lia. simpl.
      destruct (decide (4 ≤ len data)).
      * rewrite (slice_from_in_range data 4) by lia. simpl.
        by rewrite slice_from_out_of_range by (rewrite len_drop; lia).
      * by rewrite (slice_from_out_of_range data 4) by lia.
  - destruct (slice_from data 4) as [data1|]; [simpl|done].
    destruct (headerSize _ _ _) as [hs|]; [simpl|done].
    destruct (slice_from _ _); [simpl|done].
    by rewrite !Offset_add_l, !Offset_add_r.
Qed.

Lemma headerSize_234 version secoffsz data :
  version = 2 ∨ version = 3 ∨ version = 4 →
  headerSize version secoffsz data = Ok (3 + secoffsz).
Proof. intros. unfold headerSize. by rewrite decide_True. Qed.

Lemma headerSize_default version secoffsz data :
  version ≠ 2 → version ≠ 3 → version ≠ 4 →
  headerSize version secoffsz data =
    (unitType ← index data 2; Ok (unitType_headerSize unitType secoffsz)).
Proof. intros. unfold headerSize. rewrite decide_False; [done | lia]. Qed.

Lemma unitType_headerSize_unrecognized unitType secoffsz :
  ¬ (1 ≤ unitType ≤ 6) → unitType_headerSize unitType secoffsz = 0.
Proof.
  intros. unfold unitType_headerSize, _DW_UT_compile, _DW_UT_type,
    _DW_UT_partial, _DW_UT_skeleton, _DW_UT_split_compile, _DW_UT_split_type.
  repeat case_decide; lia.
Qed.

(** ** The loop *)

Lemma ReadUnitVersions_loop_nil off r : ReadUnitVersions_loop [] off r = Ok r.
Proof. by simp ReadUnitVersions_loop. Qed.

Lemma ReadUnitVersions_loop_step data off r :
  data ≠ [] →
  ReadUnitVersions_loop data off r =
    ('(data', off', r') ← unit_step data off r;
     ReadUnitVersions_loop data' off' r').
Proof.
  destruct data as [|b l]; [done|]. intros _.
  rewrite ReadUnitVersions_loop_cons.
  by destruct (unit_step (b :: l) off r) as [[[data' off'] r']|p].
Qed.

(** A property of the loop variables that every pass preserves holds of
    the returned map. *)
Lemma ReadUnitVersions_loop_invariant (P : list byte → Z → gmap Z Z → Prop) :
  (∀ data off r data' off' r',
     data ≠ [] → P data off r →
     unit_step data off r = Ok (data', off', r') → P data' off' r') →
  ∀ data off r m,
    P data off r → ReadUnitVersions_loop data off r = Ok m →
    ∃ off', P [] off' m.
Proof.
  intros Hstep data. remember (length data) as n eqn:Hn. revert data Hn.
  induction n as [n IH] using lt_wf_ind. intros data -> off r m HP Hloop.
  destruct data as [|b l].
  - rewrite ReadUnitVersions_loop_nil in Hloop. injection Hloop as <-. eauto.
  - rewrite ReadUnitVersions_loop_step in Hloop by done.
    apply bind_Ok_inv in Hloop as ([[data' off'] r'] & Hs & Hloop).
    eapply (IH (length data')); [|done| |done].
    + eapply unit_step_shorter, Hs.
    + eapply Hstep; [|done..]. done.
Qed.

(** C3. With [S] the section-offset width of the unit, the header size is
    [3 + S] for versions 2, 3, 4 and, for version 5 and later, [4 + S] for
    unit types compile and partial, [4 + S + 8] for skeleton and
    split_compile, [4 + S + 8 + S] for type and split_type; a pass of the
    loop stores the version under the key (offset just past the length
    field + header size) in the map [r] that the scan goes on with and
    returns. *)
Theorem unit_header_size_recorded
    (data : list byte) (off : Z) (r : gmap Z Z) (length version : Z)
    (dwarf64 : bool) (byteOrder : ByteOrder) (data1 : list byte) :
  ReadDwarfLengthVersion data = Ok (length, dwarf64, version, byteOrder) →
  slice_from data (if dwarf64 then 12 else 4) = Ok data1 →
  let S := if dwarf64 then 8 else 4 in
  let off1 := off + (if dwarf64 then 12 else 4) in
  (version = 2 ∨ version = 3 ∨ version = 4 →
   headerSize version S data1 = Ok (3 + S)) ∧
  (5 ≤ version → ∀ unitType, index data1 2 = Ok unitType →
     (unitType = _DW_UT_compile ∨ unitType = _DW_UT_partial →
      headerSize version S data1 = Ok (4 + S)) ∧
     (unitType = _DW_UT_skeleton ∨ unitType = _DW_UT_split_compile →
      headerSize version S data1 = Ok (4 + S + 8)) ∧
     (unitType = _DW_UT_type ∨ unitType = _DW_UT_split_type →
      headerSize version S data1 = Ok (4 + S + 8 + S))) ∧
  (∀ hs data' off' r',
     headerSize version S data1 = Ok hs →
     unit_step data off r = Ok (data', off', r') →
     r' = <[Offset (off1 + hs) := version]> r ∧
     r' !! Offset (off1 + hs) = Some version ∧
     ReadUnitVersions_loop data off r = ReadUnitVersions_loop data' off' r' ∧
     (data' = [] → ReadUnitVersions_loop data off r = Ok r')).
Proof.
  intros Hr H1 S off1. split_and!.
  - apply headerSize_234.
  - intros H5 unitType Ht. rewrite headerSize_default by lia. rewrite Ht. simpl.
    unfold unitType_headerSize, _DW_UT_compile, _DW_UT_type, _DW_UT_partial,
      _DW_UT_skeleton, _DW_UT_split_compile, _DW_UT_split_type.
    split_and!; intros; repeat case_decide; first [done | lia].
  - intros hs data' off' r' Hhs Hs.
    assert (data ≠ []) as Hne.
    { intros ->. vm_compute in H1. by destruct dwarf64. }
    rewrite ReadUnitVersions_loop_step, Hs by done. simpl.
    rewrite (unit_step_eq _ _ _ _ _ _ _ Hr) in Hs.
    unfold length_field_size, section_offset_size in Hs.
    rewrite H1 in Hs. simpl in Hs. fold S in Hs. rewrite Hhs in Hs. simpl in Hs.
    apply bind_Ok_inv in Hs as (data2 & _ & [= <- <- <-]).
    split_and!; [done| by rewrite lookup_insert_eq |done|].
    intros ->. apply ReadUnitVersions_loop_nil.
Qed.

Lemma unit_header_size_recorded_witness :
  headerSize 5 4 (drop 4 scenario4) = Ok (4 + 4) ∧
  ReadUnitVersions scenario4 = Ok (<[Offset (0 + 4 + 8) := 5]> ∅).
Proof.
  destruct (unit_header_size_recorded scenario4 0 ∅ 8 5 false LittleEndian
              (drop 4 scenario4)) as (_ & H5 & Hrec);
    [vm_compute; reflexivity..|].
  split.
  - apply (H5 ltac:(lia) 1); [vm_compute; reflexivity | by left].
  - destruct (Hrec 8 [] 12 {[12 := 5]}) as (_ & _ & _ & Hfin);
      [vm_compute; reflexivity..|].
    unfold ReadUnitVersions. rewrite Hfin by done. vm_compute. reflexivity.
Defined.

(** C10. A unit whose decoded version is not 2, 3 or 4 (versions 0 and 1
    included) goes through the branch of DWARF 5 and later: the header size
    is read off the unit-type byte at index 2 of the data after the length
    field, by the DWARF 5 table, and with fewer than 3 bytes there the pass
    panics on that index. *)
Theorem version_outside_234_reads_unit_type
    (data : list byte) (off : Z) (r : gmap Z Z) (length version : Z)
    (dwarf64 : bool) (byteOrder : ByteOrder) (data1 : list byte) :
  ReadDwarfLengthVersion data = Ok (length, dwarf64, version, byteOrder) →
  slice_from data (if dwarf64 then 12 else 4) = Ok data1 →
  version ≠ 2 → version ≠ 3 → version ≠ 4 →
  let S := if dwarf64 then 8 else 4 in
  (∀ version5, 5 ≤ version5 →
     headerSize version S data1 = headerSize version5 S data1) ∧
  (∀ unitType, index data1 2 = Ok unitType →
     headerSize version S data1 = Ok (unitType_headerSize unitType S) ∧
     (unitType = _DW_UT_compile ∨ unitType = _DW_UT_partial →
      headerSize version S data1 = Ok (4 + S)) ∧
     (unitType = _DW_UT_skeleton ∨ unitType = _DW_UT_split_compile →
      headerSize version S data1 = Ok (4 + S + 8)) ∧
     (unitType = _DW_UT_type ∨ unitType = _DW_UT_split_type →
      headerSize version S data1 = Ok (4 + S + 8 + S))) ∧
  (len data1 < 3 →
   headerSize version S data1 = Panic index_out_of_range ∧
   unit_step data off r = Panic index_out_of_range).
Proof.
  intros Hr H1 Hv2 Hv3 Hv4 S. split_and!.
  - intros version5 H5. by rewrite !headerSize_default by lia.
  - intros unitType Ht. rewrite headerSize_default by lia. rewrite Ht. simpl.
    unfold unitType_headerSize, _DW_UT_compile, _DW_UT_type, _DW_UT_partial,
      _DW_UT_skeleton, _DW_UT_split_compile, _DW_UT_split_type.
    split_and!; intros; repeat case_decide; first [done | lia].
  - intros H3.
    assert (headerSize version S data1 = Panic index_out_of_range) as Hhs.
    { rewrite headerSize_default by lia.
      rewrite (proj2 (index_out_of_range_iff data1 2)) by lia. done. }
    split; [done|].
    rewrite (unit_step_eq _ _ _ _ _ _ _ Hr).
    unfold length_field_size, section_offset_size.
    rewrite H1. simpl. fold S. by rewrite Hhs.
Qed.

(** A unit of the degenerate version 0 (both version bytes zero) holding
    only its two version bytes: the unit-type index is out of range. *)
Lemma version_outside_234_reads_unit_type_witness :
  unit_step [x02; x00; x00; x00; x00; x00] 0 ∅ = Panic index_out_of_range.
Proof.
  destruct (version_outside_234_reads_unit_type
              [x02; x00; x00; x00; x00; x00] 0 ∅ 2 0 false LittleEndian
              [x00; x00]) as (_ & _ & Hshort);
    [vm_compute; reflexivity | vm_compute; reflexivity | lia..|].
  apply Hshort. vm_compute. reflexivity.
Defined.

(** C5, as the code has it. For a unit of version 5 or later whose
    unit-type byte is outside the codes 1-6, the unit-type switch matches
    no case and does not panic: the header size stays 0, so the version is
    stored under the offset just past the length field, and the pass goes
    on to skip the payload and continue the scan. *)
Theorem unrecognized_unit_type_header_size_zero
    (data : list byte) (off : Z) (r : gmap Z Z) (length version : Z)
    (dwarf64 : bool) (byteOrder : ByteOrder) (data1 : list byte)
    (unitType : Z) :
  ReadDwarfLengthVersion data = Ok (length, dwarf64, version, byteOrder) →
  slice_from data (if dwarf64 then 12 else 4) = Ok data1 →
  5 ≤ version →
  index data1 2 = Ok unitType →
  ¬ (1 ≤ unitType ≤ 6) →
  let S := if dwarf64 then 8 else 4 in
  let off1 := off + (if dwarf64 then 12 else 4) in
  headerSize version S data1 = Ok 0 ∧
  (∀ data2, slice_from data1 length = Ok data2 →
     unit_step data off r
       = Ok (data2, Offset (off1 + length), <[Offset off1 := version]> r) ∧
     ReadUnitVersions_loop data off r
       = ReadUnitVersions_loop data2 (Offset (off1 + length))
           (<[Offset off1 := version]> r)).
Proof.
  intros Hr H1 H5 Ht Hu S off1.
  assert (headerSize version S data1 = Ok 0) as Hhs.
  { rewrite headerSize_default by lia. rewrite Ht. simpl.
    by rewrite unitType_headerSize_unrecognized. }
  split; [done|]. intros data2 H2.
  assert (unit_step data off r
            = Ok (data2, Offset (off1 + length), <[Offset off1 := version]> r))
    as Hs.
  { rewrite (unit_step_eq _ _ _ _ _ _ _ Hr).
    unfold length_field_size, section_offset_size.
    rewrite H1. simpl. fold S. rewrite Hhs. simpl. rewrite H2. simpl.
    by rewrite Z.add_0_r. }
  split; [done|].
  assert (data ≠ []) as Hne.
  { intros ->. vm_compute in H1. by destruct dwarf64. }
  by rewrite ReadUnitVersions_loop_step, Hs by done.
Qed.

Lemma unrecognized_unit_type_header_size_zero_witness :
  unit_step unit_type_zero_then_dwarf4 0 ∅
    = Ok (drop 7 unit_type_zero_then_dwarf4, Offset (0 + 4 + 3),
          <[Offset (0 + 4) := 5]> ∅).
Proof.
  destruct (unrecognized_unit_type_header_size_zero
              unit_type_zero_then_dwarf4 0 ∅ 3 5 false LittleEndian
              (drop 4 unit_type_zero_then_dwarf4) 0) as [_ Hgo];
    [vm_compute; reflexivity | vm_compute; reflexivity | lia
    | vm_compute; reflexivity | lia |].
  apply (Hgo (drop 7 unit_type_zero_then_dwarf4)). vm_compute. reflexivity.
Defined.

(** C5 as stated fails: the unit of unit type 0 is stored with header size
    0 (key 4), not [4 + S = 8] (key 12), and the scan does not stop there,
    as the entry of the following unit (key 18) shows. *)
Lemma unrecognized_unit_type_neither_option :
  ∃ rest m,
    unit_step unit_type_zero_then_dwarf4 0 ∅ = Ok (rest, 7, {[ 4 := 5 ]}) ∧
    rest ≠ [] ∧
    ReadUnitVersions unit_type_zero_then_dwarf4 = Ok m ∧
    m = {[ 4 := 5; 18 := 4 ]} ∧
    m !! (4 + (4 + 4)) = None ∧
    m !! 18 = Some 4.
Proof.
  eexists _, _. split_and!; [vm_compute; reflexivity | done
    | vm_compute; reflexivity | vm_compute; reflexivity
    | vm_compute; reflexivity | vm_compute; reflexivity].
Qed.

Lemma unit_step_Ok_inv data off r data' off' r' :
  unit_step data off r = Ok (data', off', r') →
  ∃ length dwarf64 version byteOrder hs,
    ReadDwarfLengthVersion data = Ok (length, dwarf64, version, byteOrder) ∧
    length_field_size dwarf64 ≤ len data ∧
    headerSize version (section_offset_size dwarf64)
      (drop (Z.to_nat (length_field_size dwarf64)) data) = Ok hs ∧
    0 ≤ length ≤ len data - length_field_size dwarf64 ∧
    len data' = len data - length_field_size dwarf64 - length ∧
    off' = Offset (off + length_field_size dwarf64 + length) ∧
    r' = <[Offset (off + length_field_size dwarf64 + hs) := version]> r.
Proof.
  intros Hs.
  destruct (ReadDwarfLengthVersion_total data) as (l & d & v & o & Hr).
  rewrite (unit_step_eq _ _ _ _ _ _ _ Hr) in Hs.
  apply bind_Ok_inv in Hs as (data1 & [H1 ->]%slice_from_Ok_inv & Hs).
  apply bind_Ok_inv in Hs as (hs & Hhs & Hs).
  apply bind_Ok_inv in Hs as (data2 & [H2 ->]%slice_from_Ok_inv & Hs).
  injection Hs as <- <- <-.
  rewrite len_drop in H2 by done.
  exists l, d, v, o, hs. split_and!; try done; try lia.
  rewrite !len_drop; [lia | lia |]. rewrite len_drop; lia.
Qed.

Lemma headerSize_bounds version dwarf64 data hs :
  headerSize version (section_offset_size dwarf64) data = Ok hs →
  0 ≤ hs ≤ 28 ∧ (hs ≤ 11 ∨ 3 ≤ len data).
Proof.
  unfold headerSize. case_decide.
  - intros [= <-]. destruct dwarf64; simpl; lia.
  - intros (t & [Ht _]%index_Ok_inv & [= <-])%bind_Ok_inv.
    unfold unitType_headerSize.
    destruct dwarf64; simpl; repeat case_decide; lia.
Qed.

(** C1, as the code has it. The scan of the empty input returns the empty
    map; on inputs of length 1, 2 or 3 it panics on the slice [data[4:]];
    and at any unit whose payload length exceeds the bytes left after the
    length field it panics instead of truncating. Every scan ends in one
    of the two outcomes, a map or a panic. *)
Theorem ReadUnitVersions_returns_or_panics :
  ReadUnitVersions [] = Ok ∅ ∧
  (∀ B : list byte, 1 ≤ len B ≤ 3 →
     ReadUnitVersions B = Panic slice_bounds_out_of_range) ∧
  (∀ data off r length dwarf64 version byteOrder,
     data ≠ [] →
     ReadDwarfLengthVersion data = Ok (length, dwarf64, version, byteOrder) →
     len data - (if dwarf64 : bool then 12 else 4) < length →
     ∃ p, unit_step data off r = Panic p ∧
          ReadUnitVersions_loop data off r = Panic p) ∧
  (∀ B : list byte,
     (∃ m, ReadUnitVersions B = Ok m) ∨ (∃ p, ReadUnitVersions B = Panic p)).
Proof.
  split_and!.
  - apply ReadUnitVersions_loop_nil.
  - intros B HB. unfold ReadUnitVersions.
    rewrite ReadUnitVersions_loop_step by (intros ->; unfold len in HB; simpl in HB; lia).
    rewrite (unit_step_eq B 0 ∅ 0 false 0 LittleEndian)
      by (apply ReadDwarfLengthVersion_short; lia).
    simpl. by rewrite slice_from_out_of_range by lia.
  - intros data off r length dwarf64 version byteOrder Hne Hr Hlen.
    rewrite ReadUnitVersions_loop_step by done.
    rewrite (unit_step_eq _ _ _ _ _ _ _ Hr). unfold length_field_size.
    destruct (slice_from data _) as [data1|p] eqn:H1; [simpl|by eauto].
    apply slice_from_Ok_inv in H1 as [H1 ->].
    destruct (headerSize _ _ _) as [hs|p]; [simpl|by eauto].
    rewrite slice_from_out_of_range by (rewrite len_drop; lia).
    by eauto.
  - intros B. destruct (ReadUnitVersions B); eauto.
Qed.

Lemma ReadUnitVersions_returns_or_panics_witness :
  ReadUnitVersions [x07; x00; x00] = Panic slice_bounds_out_of_range ∧
  ∃ p, unit_step [x08; x00; x00; x00; x04; x00; x00; x00; x00; x00; x00] 0 ∅
         = Panic p ∧
       ReadUnitVersions_loop
         [x08; x00; x00; x00; x04; x00; x00; x00; x00; x00; x00] 0 ∅
         = Panic p.
Proof.
  destruct ReadUnitVersions_returns_or_panics as (_ & Hshort & Hover & _).
  split.
  - apply Hshort. vm_compute. split; discriminate.
  - apply (Hover _ 0 ∅ 8 false 4 LittleEndian);
      [done | vm_compute; reflexivity | vm_compute; reflexivity].
Defined.

(** C1 as stated fails: inputs of length 1, 2 and 3 panic, and so does a
    DWARF 4 unit whose length field (8) is one more than the 7 bytes that
    follow it. *)
Lemma ReadUnitVersions_panics_on_short_input :
  ReadUnitVersions [x00] = Panic slice_bounds_out_of_range ∧
  ReadUnitVersions [x00; x00] = Panic slice_bounds_out_of_range ∧
  ReadUnitVersions [x00; x00; x00] = Panic slice_bounds_out_of_range ∧
  ReadUnitVersions [x08; x00; x00; x00; x04; x00; x00; x00; x00; x00; x00]
    = Panic slice_bounds_out_of_range.
Proof. vm_compute. done. Qed.

Lemma scan_invariant_step B data off r data' off' r' :
  data ≠ [] → scan_invariant B data off r →
  unit_step data off r = Ok (data', off', r') →
  scan_invariant B data' off' r'.
Proof.
  intros _ (Hlen & Hk & Hnw) Hs.
  apply unit_step_Ok_inv in Hs
    as (l & d & v & o & hs & Hr & Hlfs & Hhs & Hl & Hlen' & -> & ->).
  apply headerSize_bounds in Hhs as [Hhs Hhs'].
  rewrite len_drop in Hhs'
    by (unfold length_field_size in *; destruct d; lia).
  assert (4 ≤ length_field_size d) by (destruct d; simpl; lia).
  pose proof (len_nonneg data'). split_and!.
  - lia.
  - intros k w. rewrite lookup_insert. case_decide as Hc.
    + intros _. subst k. apply Offset_range.
    + apply Hk.
  - intros Hsmall. destruct (Hnw Hsmall) as [-> Hb]. split.
    + rewrite Offset_small; lia.
    + intros k w. rewrite lookup_insert. case_decide as Hc; [|apply Hb].
      intros _. subst k. rewrite Offset_small; lia.
Qed.

(** C6, as the code has it. Every key of the returned map is a 32-bit
    offset, and for inputs short enough that offsets cannot wrap it lies
    in [[4, len B + 25]]: a key is the offset just past a length field plus
    a header size, and the header size is not compared with the bytes that
    remain. *)
Theorem ReadUnitVersions_keys_bound
    (B : list byte) (m : gmap Z Z) (k v : Z) :
  ReadUnitVersions B = Ok m →
  m !! k = Some v →
  0 ≤ k < 2 ^ 32 ∧ (len B + 25 < 2 ^ 32 → 4 ≤ k ≤ len B + 25).
Proof.
  intros Hm Hk. unfold ReadUnitVersions in Hm.
  destruct (ReadUnitVersions_loop_invariant (scan_invariant B)
              (scan_invariant_step B) B 0 ∅ m) as (off' & _ & Hr & Hb);
    [|done|].
  { split_and!; [lia | by intros ???%lookup_empty_Some |].
    intros _. split; [lia | by intros ???%lookup_empty_Some]. }
  split; [by eapply Hr|]. intros Hsmall. by eapply (proj2 (Hb Hsmall)).
Qed.

Lemma ReadUnitVersions_keys_bound_witness :
  0 ≤ 11 < 2 ^ 32 ∧ (len scenario2 + 25 < 2 ^ 32 → 4 ≤ 11 ≤ len scenario2 + 25).
Proof.
  apply (ReadUnitVersions_keys_bound scenario2 {[ 11 := 4 ]} 11 4);
    vm_compute; reflexivity.
Defined.

(** C6 as stated fails on scenario 2: the only key, 11, is the length of
    the input, not an offset strictly inside it. *)
Lemma ReadUnitVersions_key_at_end_of_input :
  ReadUnitVersions scenario2 = Ok {[ 11 := 4 ]} ∧
  ({[ 11 := 4 ]} : gmap Z Z) !! 11 = Some 4 ∧
  len scenario2 = 11 ∧
  ¬ (0 ≤ 11 < len scenario2).
Proof.
  split_and!; [vm_compute; reflexivity..|].
  vm_compute. intros [_ H]. discriminate.
Qed.

(** The bound [len B + 25] is reached: a 64-bit DWARF 5 type unit of
    length 3 has header size 28 and key [12 + 28 = 40 = 15 + 25]. *)
Example ReadUnitVersions_key_past_end_of_input :
  ReadUnitVersions [xff; xff; xff; xff; x03; x00; x00; x00; x00; x00; x00; x00;
                    x05; x00; x02]
    = Ok {[ 40 := 5 ]}.
Proof. vm_compute. reflexivity. Qed.

(** ** Primitive I/O: strings *)

Lemma bytes_ReadString_terminated (s rest : list byte) (delim : byte) :
  delim ∉ s →
  bytes.ReadString (s ++ delim :: rest) delim = (s ++ [delim], None, rest).
Proof.
  induction s as [|b s IH]; simpl; intros Hs.
  - by rewrite (Byte.byte_dec_lb (@eq_refl _ delim)).
  - apply not_elem_of_cons in Hs as [Hb Hs].
    destruct (Byte.eqb b delim) eqn:E.
    + apply Byte.byte_dec_bl in E. congruence.
    + by rewrite IH.
Qed.

Lemma bytes_ReadString_unterminated (buf : list byte) (delim : byte) :
  delim ∉ buf → bytes.ReadString buf delim = (buf, Some io_EOF, []).
Proof.
  induction buf as [|b buf IH]; simpl; intros Hs; [done|].
  apply not_elem_of_cons in Hs as [Hb Hs].
  destruct (Byte.eqb b delim) eqn:E.
  - apply Byte.byte_dec_bl in E. congruence.
  - by rewrite IH.
Qed.

(** Without an error the line read ends with the delimiter, so that the
    slice [str[:len(str)-1]] in [ReadString] is within bounds. *)
Lemma ReadString_line_nonempty (buf : list byte) (delim : byte) line rest :
  bytes.ReadString buf delim = (line, None, rest) →
  ∃ s, line = s ++ [delim] ∧ buf = line ++ rest.
Proof.
  revert line. induction buf as [|b buf IH]; simpl; intros line; [done|].
  destruct (Byte.eqb b delim) eqn:E.
  - apply Byte.byte_dec_bl in E as ->. intros [= <- <-]. by exists [].
  - destruct (bytes.ReadString buf delim) as [[line' err] rest'].
    intros [= <- -> <-]. destruct (IH line' eq_refl) as (s & -> & ->).
    by exists (b :: s).
Qed.

(** C9. For a string [s] without a zero byte, [ReadString] on [s] followed
    by one zero byte returns [s] and no error, the terminator left out and
    the buffer advanced past it; on a buffer without a zero byte it
    returns an error. *)
Theorem ReadString_roundtrip (s : list byte) :
  x00 ∉ s →
  ReadString (s ++ [x00]) = (s, None, []) ∧
  (∀ rest, ReadString (s ++ x00 :: rest) = (s, None, rest)) ∧
  ReadString s = ([], Some io_EOF, []).
Proof.
  intros Hs.
  assert (∀ rest, ReadString (s ++ x00 :: rest) = (s, None, rest)) as Hrt.
  { intros rest. unfold ReadString.
    rewrite bytes_ReadString_terminated by done.
    rewrite length_app. simpl.
    replace (length s + 1 - 1)%nat with (length s) by lia.
    by rewrite take_app_length. }
  split_and!; [apply Hrt | apply Hrt |].
  unfold ReadString. by rewrite bytes_ReadString_unterminated.
Qed.

Lemma ReadString_roundtrip_witness :
  ReadString ([x64; x6c; x76] ++ [x00]) = ([x64; x6c; x76], None, []) ∧
  (∀ rest, ReadString ([x64; x6c; x76] ++ x00 :: rest)
           = ([x64; x6c; x76], None, rest)) ∧
  ReadString [x64; x6c; x76] = ([], Some io_EOF, []).
Proof.
  apply (ReadString_roundtrip [x64; x6c; x76]).
  rewrite !not_elem_of_cons. split_and!; [discriminate..|].
  apply not_elem_of_nil.
Defined.

(** ** Primitive I/O: fixed-width integers *)

Lemma u8_byte_of v : u8 (byte_of v) = v `mod` 2 ^ 8.
Proof.
  unfold u8, byte_of. change (2 ^ 8) with 256.
  pose proof (Z.mod_pos_bound v 256 ltac:(lia)) as Hb.
  pose proof (Byte.to_of_N_option_map (Z.to_N (v `mod` 256))) as Hn.
  rewrite (proj2 (N.leb_le _ 255)) in Hn by lia.
  destruct (Byte.of_N (Z.to_N (v `mod` 256))) as [b|]; [|done].
  simpl in *. injection Hn as ->. lia.
Qed.

Lemma testbit_above v n i :
  0 ≤ v < 2 ^ n → 0 ≤ n ≤ i → Z.testbit v i = false.
Proof.
  intros Hv Hi. rewrite <- (Z.mod_small v (2 ^ n)) by done.
  apply Z.mod_pow2_bits_high. lia.
Qed.

(** Bit [i] of the byte of [v] at bit position [k], put back in place. *)
Lemma testbit_byte_of v k i :
  0 ≤ k → 0 ≤ i →
  Z.testbit (u8 (byte_of (v ≫ k)) ≪ k) i
    = bool_decide (k ≤ i < k + 8) && Z.testbit v i.
Proof.
  intros Hk Hi. rewrite u8_byte_of, Z.shiftl_spec by done.
  destruct (decide (k ≤ i)) as [Hki|Hki].
  - rewrite Z.testbit_mod_pow2 by lia. rewrite Z.shiftr_spec by lia.
    replace (i - k + k) with i by lia.
    destruct (decide (i < k + 8)).
    + rewrite bool_decide_eq_true_2 by lia.
      by rewrite (proj2 (Z.ltb_lt _ _)) by lia.
    + rewrite bool_decide_eq_false_2 by lia.
      by rewrite (proj2 (Z.ltb_ge _ _)) by lia.
  - rewrite Z.testbit_neg_r by lia. by rewrite bool_decide_eq_false_2 by lia.
Qed.

Lemma testbit_byte_of_0 v i :
  0 ≤ i →
  Z.testbit (u8 (byte_of v)) i = bool_decide (0 ≤ i < 0 + 8) && Z.testbit v i.
Proof.
  intros Hi. rewrite <- (testbit_byte_of v 0 i) by lia.
  by rewrite Z.shiftr_0_r, Z.shiftl_0_r.
Qed.

Ltac bytes_bitwise n :=
  let i := fresh "i" in
  let Hi := fresh "Hi" in
  apply Z.bits_inj'; intros i Hi;
  rewrite !Z.lor_spec, !testbit_byte_of, testbit_byte_of_0 by lia;
  destruct (decide (i < n));
  [ destruct (Z.testbit _ i); rewrite ?andb_false_r, ?andb_true_r;
    [|reflexivity];
    repeat case_bool_decide; simpl; first [reflexivity | lia]
  | rewrite (testbit_above _ n i) by lia; by rewrite !andb_false_r ].

Lemma Uint32_PutUint32 order v rest :
  0 ≤ v < 2 ^ 32 →
  binary.Uint32 order (binary.PutUint32 order v ++ rest) = Ok v.
Proof.
  intros Hv. destruct order; simpl; f_equal; bytes_bitwise 32.
Qed.

Lemma Uint64_PutUint64 order v rest :
  0 ≤ v < 2 ^ 64 →
  binary.Uint64 order (binary.PutUint64 order v ++ rest) = Ok v.
Proof.
  intros Hv. destruct order; simpl; f_equal; bytes_bitwise 64.
Qed.

Lemma len_PutUint32 order v : len (binary.PutUint32 order v) = 4.
Proof. by destruct order. Qed.

Lemma len_PutUint64 order v : len (binary.PutUint64 order v) = 8.
Proof. by destruct order. Qed.

Lemma ReadFull_app (written rest : list byte) :
  io.ReadFull (written ++ rest) (length written) = (written, None, rest).
Proof.
  unfold io.ReadFull. rewrite decide_True by (rewrite length_app; lia).
  by rewrite take_app_length, drop_app_length.
Qed.

(** C8. For either byte order, a width [p] of 4 or 8 and a value
    [v < 2^(8p)], [WriteUint] succeeds and appends [p] bytes, and
    [ReadUintRaw] with the same order and width over those bytes succeeds
    and returns [v], consuming exactly those bytes. *)
Theorem WriteUint_ReadUintRaw_roundtrip
    (order : ByteOrder) (ptrSize v : Z) (writer rest : list byte) :
  ptrSize = 4 ∨ ptrSize = 8 →
  0 ≤ v < 2 ^ (8 * ptrSize) →
  ∃ written,
    WriteUint writer order ptrSize v = (None, writer ++ written) ∧
    len written = ptrSize ∧
    ReadUintRaw written order ptrSize = Ok (v, None, []) ∧
    ReadUintRaw (written ++ rest) order ptrSize = Ok (v, None, rest).
Proof.
  intros [-> | ->] Hv.
  - exists (binary.PutUint32 order v).
    assert (∀ rest, ReadUintRaw (binary.PutUint32 order v ++ rest) order 4
                    = Ok (v, None, rest)) as Hread.
    { intros rest'. unfold ReadUintRaw. simpl. unfold binary.Read.
      replace 4%nat with (length (binary.PutUint32 order v))
        by (by destruct order).
      rewrite ReadFull_app.
      replace (length (binary.PutUint32 order v)) with 4%nat
        by (by destruct order).
      rewrite <- (app_nil_r (binary.PutUint32 order v)) at 1.
      by rewrite Uint32_PutUint32 by done. }
    split_and!.
    + unfold WriteUint. simpl. by rewrite Z.mod_small by done.
    + apply len_PutUint32.
    + rewrite <- (app_nil_r (binary.PutUint32 order v)). apply Hread.
    + apply Hread.
  - exists (binary.PutUint64 order v).
    assert (∀ rest, ReadUintRaw (binary.PutUint64 order v ++ rest) order 8
                    = Ok (v, None, rest)) as Hread.
    { intros rest'. unfold ReadUintRaw. simpl. unfold binary.Read.
      replace 8%nat with (length (binary.PutUint64 order v))
        by (by destruct order).
      rewrite ReadFull_app.
      replace (length (binary.PutUint64 order v)) with 8%nat
        by (by destruct order).
      rewrite <- (app_nil_r (binary.PutUint64 order v)) at 1.
      by rewrite Uint64_PutUint64 by done. }
    split_and!.
    + done.
    + apply len_PutUint64.
    + rewrite <- (app_nil_r (binary.PutUint64 order v)). apply Hread.
    + apply Hread.
Qed.

Lemma WriteUint_ReadUintRaw_roundtrip_witness :
  ∃ written,
    WriteUint [] BigEndian 4 0x01020304 = (None, [] ++ written) ∧
    len written = 4 ∧
    ReadUintRaw written BigEndian 4 = Ok (0x01020304, None, []) ∧
    ReadUintRaw (written ++ [xff]) BigEndian 4 = Ok (0x01020304, None, [xff]).
Proof.
  apply (WriteUint_ReadUintRaw_roundtrip BigEndian 4 0x01020304 [] [xff]).
  - by left.
  - vm_compute. split; [discriminate | reflexivity].
Defined.

(** ** The end-to-end scenarios of the specification *)

Example ReadUnitVersions_scenario1 : ReadUnitVersions [] = Ok ∅.
Proof. vm_compute. reflexivity. Qed.

Example ReadUnitVersions_scenario2 : ReadUnitVersions scenario2 = Ok {[ 11 := 4 ]}.
Proof. vm_compute. reflexivity. Qed.

Example ReadUnitVersions_scenario3 :
  ReadUnitVersions scenario3 = Ok {[ 11 := 4; 22 := 4 ]}.
Proof. vm_compute. reflexivity. Qed.

Example ReadUnitVersions_scenario4 : ReadUnitVersions scenario4 = Ok {[ 12 := 5 ]}.
Proof. vm_compute. reflexivity. Qed.

(** The length 6 of scenario 6 is less than its header size 7: the key 11
    lies past the 10 bytes of the input. *)
Example ReadUnitVersions_scenario6 :
  ReadUnitVersions scenario6 = Ok {[ 11 := 3 ]} ∧ len scenario6 = 10.
Proof. vm_compute. done. Qed.

(** A big-endian DWARF 4 unit followed by a little-endian DWARF 5 compile
    unit. *)
Example ReadUnitVersions_mixed_byte_order :
  ReadUnitVersions
    [x00; x00; x00; x07; x00; x04; x00; x00; x00; x00; x00;
     x08; x00; x00; x00; x05; x00; x01; x00; x00; x00; x00; x00]
    = Ok {[ 11 := 4; 23 := 5 ]}.
Proof. vm_compute. reflexivity. Qed.

(** * Further properties *)

(** ** The numeric value of the decoders *)

Lemma lor_shiftl_add a b n :
  0 ≤ n → 0 ≤ a < 2 ^ n → Z.lor a (b ≪ n) = a + b * 2 ^ n.
Proof.
  intros Hn Ha. rewrite Z.shiftl_mul_pow2 by done.
  assert (Z.land a (b * 2 ^ n) = 0) as Hland.
  { apply Z.bits_inj'. intros i Hi. rewrite Z.land_spec, Z.bits_0.
    destruct (decide (i < n)).
    - rewrite Z.mul_pow2_bits_low by lia. apply andb_false_r.
    - by rewrite (testbit_above a n i) by lia. }
  by rewrite <- Z.lxor_lor, <- Z.add_nocarry_lxor.
Qed.

Ltac lor_to_add :=
  repeat match goal with
  | |- context [Z.lor ?a (?b ≪ ?n)] =>
      rewrite (lor_shiftl_add a b n) by lia
  end.

Lemma Uint16_value order b0 b1 rest :
  binary.Uint16 order (b0 :: b1 :: rest)
    = Ok (le_value (match order with
                    | LittleEndian => [b0; b1]
                    | BigEndian => [b1; b0]
                    end)).
Proof.
  pose proof (u8_range b0). pose proof (u8_range b1).
  destruct order; simpl; f_equal; lor_to_add; lia.
Qed.

Lemma Uint32_value order b0 b1 b2 b3 rest :
  binary.Uint32 order (b0 :: b1 :: b2 :: b3 :: rest)
    = Ok (le_value (match order with
                    | LittleEndian => [b0; b1; b2; b3]
                    | BigEndian => [b3; b2; b1; b0]
                    end)).
Proof.
  pose proof (u8_range b0). pose proof (u8_range b1).
  pose proof (u8_range b2). pose proof (u8_range b3).
  destruct order; simpl; f_equal; lor_to_add; lia.
Qed.

Lemma Uint64_value order b0 b1 b2 b3 b4 b5 b6 b7 rest :
  binary.Uint64 order (b0 :: b1 :: b2 :: b3 :: b4 :: b5 :: b6 :: b7 :: rest)
    = Ok (le_value (match order with
                    | LittleEndian => [b0; b1; b2; b3; b4; b5; b6; b7]
                    | BigEndian => [b7; b6; b5; b4; b3; b2; b1; b0]
                    end)).
Proof.
  pose proof (u8_range b0). pose proof (u8_range b1).
  pose proof (u8_range b2). pose proof (u8_range b3).
  pose proof (u8_range b4). pose proof (u8_range b5).
  pose proof (u8_range b6). pose proof (u8_range b7).
  destruct order; simpl; f_equal; lor_to_add; lia.
Qed.

Lemma le_value_range bs : 0 ≤ le_value bs < 2 ^ (8 * len bs).
Proof.
  induction bs as [|b bs IH]; [done|].
  pose proof (u8_range b). unfold len in *. simpl le_value.
  replace (8 * Z.of_nat (length (b :: bs)))
    with (8 + 8 * Z.of_nat (length bs)) by (simpl; lia).
  rewrite Z.pow_add_r by lia. change (2 ^ 8) with 256. nia.
Qed.

Lemma le_value_shiftr bs k :
  le_value bs ≫ (8 * Z.of_nat k) = le_value (drop k bs).
Proof.
  revert bs. induction k as [|k IH]; intros bs.
  { by rewrite Z.shiftr_0_r, drop_0. }
  destruct bs as [|b bs].
  { simpl. apply Z.shiftr_0_l. }
  replace (8 * Z.of_nat (S k)) with (8 + 8 * Z.of_nat k) by lia.
  rewrite <- Z.shiftr_shiftr by lia. simpl drop. rewrite <- IH. f_equal.
  rewrite Z.shiftr_div_pow2 by lia. simpl le_value. change (2 ^ 8) with 256.
  pose proof (u8_range b). rewrite Z.add_comm, Z.mul_comm, Z.div_add_l by lia.
  rewrite Z.div_small; lia.
Qed.

Lemma byte_of_u8 b : byte_of (u8 b) = b.
Proof.
  unfold byte_of, u8. pose proof (Byte.to_N_bounded b).
  rewrite Z.mod_small by lia. by rewrite N2Z.id, Byte.of_to_N.
Qed.

Lemma byte_of_le_value b bs : byte_of (le_value (b :: bs)) = b.
Proof.
  rewrite <- (byte_of_u8 b) at 2. unfold byte_of.
  replace (le_value (b :: bs) `mod` 256) with (u8 b `mod` 256); [done|].
  simpl le_value. rewrite (Z.mul_comm 256), Z.mod_add by lia. done.
Qed.

(** The byte of [le_value bs] at position [k] is the [k]-th byte of [bs]. *)
Lemma byte_of_le_value_shiftr bs k b :
  bs !! k = Some b → byte_of (le_value bs ≫ (8 * Z.of_nat k)) = b.
Proof.
  intros Hk. rewrite le_value_shiftr.
  rewrite (drop_S _ _ _ Hk). apply byte_of_le_value.
Qed.

Ltac byte_at_position l k b n :=
  let H := fresh in
  pose proof (byte_of_le_value_shiftr l k b (@eq_refl _ (Some b))) as H;
  change (8 * Z.of_nat k) with n in H; rewrite H; clear H.

Lemma PutUint32_le_value order b0 b1 b2 b3 :
  binary.PutUint32 order
    (le_value (match order with
               | LittleEndian => [b0; b1; b2; b3]
               | BigEndian => [b3; b2; b1; b0]
               end))
    = [b0; b1; b2; b3].
Proof.
  destruct order; unfold binary.PutUint32; rewrite byte_of_le_value.
  - byte_at_position [b0; b1; b2; b3] 1%nat b1 8.
    byte_at_position [b0; b1; b2; b3] 2%nat b2 16.
    byte_at_position [b0; b1; b2; b3] 3%nat b3 24. done.
  - byte_at_position [b3; b2; b1; b0] 1%nat b2 8.
    byte_at_position [b3; b2; b1; b0] 2%nat b1 16.
    byte_at_position [b3; b2; b1; b0] 3%nat b0 24. done.
Qed.

Lemma PutUint64_le_value order b0 b1 b2 b3 b4 b5 b6 b7 :
  binary.PutUint64 order
    (le_value (match order with
               | LittleEndian => [b0; b1; b2; b3; b4; b5; b6; b7]
               | BigEndian => [b7; b6; b5; b4; b3; b2; b1; b0]
               end))
    = [b0; b1; b2; b3; b4; b5; b6; b7].
Proof.
  destruct order; unfold binary.PutUint64; rewrite byte_of_le_value.
  - byte_at_position [b0; b1; b2; b3; b4; b5; b6; b7] 1%nat b1 8.
    byte_at_position [b0; b1; b2; b3; b4; b5; b6; b7] 2%nat b2 16.
    byte_at_position [b0; b1; b2; b3; b4; b5; b6; b7] 3%nat b3 24.
    byte_at_position [b0; b1; b2; b3; b4; b5; b6; b7] 4%nat b4 32.
    byte_at_position [b0; b1; b2; b3; b4; b5; b6; b7] 5%nat b5 40.
    byte_at_position [b0; b1; b2; b3; b4; b5; b6; b7] 6%nat b6 48.
    byte_at_position [b0; b1; b2; b3; b4; b5; b6; b7] 7%nat b7 56. done.
  - byte_at_position [b7; b6; b5; b4; b3; b2; b1; b0] 1%nat b6 8.
    byte_at_position [b7; b6; b5; b4; b3; b2; b1; b0] 2%nat b5 16.
    byte_at_position [b7; b6; b5; b4; b3; b2; b1; b0] 3%nat b4 24.
    byte_at_position [b7; b6; b5; b4; b3; b2; b1; b0] 4%nat b3 32.
    byte_at_position [b7; b6; b5; b4; b3; b2; b1; b0] 5%nat b2 40.
    byte_at_position [b7; b6; b5; b4; b3; b2; b1; b0] 6%nat b1 48.
    byte_at_position [b7; b6; b5; b4; b3; b2; b1; b0] 7%nat b0 56. done.
Qed.

(** ** ReadUintRaw and WriteUint: outcomes *)

Lemma binary_Read_short reader order size :
  (length reader < size)%nat →
  binary.Read reader order size
    = Ok (0, Some (match reader with
                   | [] => io_EOF
                   | _ => io_ErrUnexpectedEOF
                   end), []).
Proof.
  intros Hs. unfold binary.Read, io.ReadFull.
  rewrite decide_False by lia. by destruct reader.
Qed.

Lemma binary_Read_value (bs rest : list byte) order size :
  (size = 2 ∨ size = 4 ∨ size = 8)%nat →
  length bs = size →
  binary.Read (bs ++ rest) order size
    = Ok (le_value (match order with
                    | LittleEndian => bs
                    | BigEndian => rev bs
                    end), None, rest).
Proof.
  intros Hsize Hlen. unfold binary.Read. rewrite <- Hlen, ReadFull_app.
  destruct Hsize as [-> | [-> | ->]]; rewrite Hlen.
  - destruct bs as [|b0 [|b1 [|]]]; try discriminate Hlen.
    rewrite (Uint16_value order b0 b1 []). by destruct order.
  - destruct bs as [|b0 [|b1 [|b2 [|b3 [|]]]]]; try discriminate Hlen.
    rewrite (Uint32_value order b0 b1 b2 b3 []). by destruct order.
  - destruct bs as [|b0 [|b1 [|b2 [|b3 [|b4 [|b5 [|b6 [|b7 [|]]]]]]]]];
      try discriminate Hlen.
    rewrite (Uint64_value order b0 b1 b2 b3 b4 b5 b6 b7 []). by destruct order.
Qed.

Lemma ReadUintRaw_supported reader order ptrSize :
  ptrSize = 2 ∨ ptrSize = 4 ∨ ptrSize = 8 →
  ReadUintRaw reader order ptrSize
    = ('(n, err, reader) ← binary.Read reader order (Z.to_nat ptrSize);
       match err with
       | Some e => Ok (0, Some e, reader)
       | None => Ok (n, None, reader)
       end).
Proof. intros [-> | [-> | ->]]; reflexivity. Qed.

Lemma ReadUintRaw_front (bs rest : list byte) order ptrSize :
  ptrSize = 2 ∨ ptrSize = 4 ∨ ptrSize = 8 →
  len bs = ptrSize →
  ReadUintRaw (bs ++ rest) order ptrSize
    = Ok (le_value (match order with
                    | LittleEndian => bs
                    | BigEndian => rev bs
                    end), None, rest).
Proof.
  intros Hp Hlen. rewrite ReadUintRaw_supported by done.
  rewrite binary_Read_value; [done | lia | unfold len in Hlen; lia].
Qed.

(** X1. With a supported width and exactly that many bytes [bs] at the
    front of the reader, [ReadUintRaw] returns the number that [bs] writes
    least significant byte first in little-endian order, and most
    significant byte first in big-endian order, and leaves the reader just
    behind [bs]. *)
Theorem ReadUintRaw_value
    (bs rest : list byte) (order : ByteOrder) (ptrSize : Z) :
  ptrSize = 2 ∨ ptrSize = 4 ∨ ptrSize = 8 →
  len bs = ptrSize →
  ReadUintRaw (bs ++ rest) order ptrSize
    = Ok (le_value (match order with
                    | LittleEndian => bs
                    | BigEndian => rev bs
                    end), None, rest).
Proof. apply ReadUintRaw_front. Qed.

Lemma ReadUintRaw_value_witness :
  ReadUintRaw ([x12; x34] ++ [xff]) BigEndian 2
    = Ok (le_value (rev [x12; x34]), None, [xff]).
Proof.
  apply (ReadUintRaw_value [x12; x34] [xff] BigEndian 2);
    [by left | reflexivity].
Defined.

(** X2. [ReadUintRaw] never panics. It returns no error exactly when the
    width is 2, 4 or 8 and the reader holds at least that many bytes; it
    then consumes exactly that many bytes and its value is below
    [2^(8 * ptrSize)]. With an error the value is 0, and for an unsupported
    width the reader is left untouched. *)
Theorem ReadUintRaw_outcome
    (reader : list byte) (order : ByteOrder) (ptrSize : Z) :
  ∃ v err reader',
    ReadUintRaw reader order ptrSize = Ok (v, err, reader') ∧
    (err = None ↔
     (ptrSize = 2 ∨ ptrSize = 4 ∨ ptrSize = 8) ∧ ptrSize ≤ len reader) ∧
    (err = None →
     reader' = drop (Z.to_nat ptrSize) reader ∧ 0 ≤ v < 2 ^ (8 * ptrSize)) ∧
    (err ≠ None → v = 0) ∧
    (ptrSize ≠ 2 → ptrSize ≠ 4 → ptrSize ≠ 8 →
     err = Some (pointer_size_not_supported ptrSize) ∧ reader' = reader).
Proof.
  destruct (decide (ptrSize = 2 ∨ ptrSize = 4 ∨ ptrSize = 8)) as [Hp|Hp].
  - destruct (decide (ptrSize ≤ len reader)) as [Hl|Hl].
    + exists (le_value (match order with
                        | LittleEndian => take (Z.to_nat ptrSize) reader
                        | BigEndian => rev (take (Z.to_nat ptrSize) reader)
                        end)), None, (drop (Z.to_nat ptrSize) reader).
      assert (len (take (Z.to_nat ptrSize) reader) = ptrSize) as Hlen
        by (unfold len in *; rewrite length_take; lia).
      split_and!; try done; try lia.
      * rewrite <- (take_drop (Z.to_nat ptrSize) reader) at 1.
        by apply ReadUintRaw_front.
      * intros _. split; [done|].
        pose proof (le_value_range (take (Z.to_nat ptrSize) reader)) as Hr.
        pose proof (le_value_range (rev (take (Z.to_nat ptrSize) reader)))
          as Hr'.
        unfold len in Hr'. rewrite length_rev in Hr'. fold (len (take (Z.to_nat ptrSize) reader)) in Hr'.
        rewrite Hlen in Hr, Hr'. by destruct order.
    + exists 0, (Some match reader with
                      | [] => io_EOF
                      | _ => io_ErrUnexpectedEOF
                      end), [].
      split_and!; try done; try lia.
      * rewrite ReadUintRaw_supported by done.
        rewrite binary_Read_short by (unfold len in Hl; lia). done.
      * split; [done | lia].
  - exists 0, (Some (pointer_size_not_supported ptrSize)), reader.
    split_and!; try done.
    + unfold ReadUintRaw. repeat case_decide; try done; tauto.
    + split; [done | tauto].
Qed.

(** X3. With a supported width and fewer bytes than that in the reader,
    [ReadUintRaw] returns 0 with [io.EOF] when the reader is empty and with
    [io.ErrUnexpectedEOF] otherwise, and the reader is drained. *)
Theorem ReadUintRaw_short_read
    (reader : list byte) (order : ByteOrder) (ptrSize : Z) :
  ptrSize = 2 ∨ ptrSize = 4 ∨ ptrSize = 8 →
  len reader < ptrSize →
  (reader = [] →
   ReadUintRaw reader order ptrSize = Ok (0, Some io_EOF, [])) ∧
  (reader ≠ [] →
   ReadUintRaw reader order ptrSize = Ok (0, Some io_ErrUnexpectedEOF, [])).
Proof.
  intros Hp Hl. rewrite ReadUintRaw_supported by done.
  rewrite binary_Read_short by (unfold len in Hl; lia).
  by destruct reader.
Qed.

Lemma ReadUintRaw_short_read_witness :
  ReadUintRaw [x01; x02; x03] LittleEndian 4
    = Ok (0, Some io_ErrUnexpectedEOF, []).
Proof.
  apply (ReadUintRaw_short_read [x01; x02; x03] LittleEndian 4);
    [by right; left | reflexivity | done].
Defined.

Lemma WriteUint_ReadUintRaw_roundtrip_aux32 order v rest :
  0 ≤ v < 2 ^ 32 →
  len (binary.PutUint32 order v) = 4 ∧
  ReadUintRaw (binary.PutUint32 order v ++ rest) order 4 = Ok (v, None, rest).
Proof.
  intros Hv. split; [apply len_PutUint32|].
  rewrite ReadUintRaw_supported by auto. unfold binary.Read.
  change (Z.to_nat 4) with 4%nat.
  replace 4%nat with (length (binary.PutUint32 order v)) at 1
    by (by destruct order).
  rewrite ReadFull_app.
  replace (length (binary.PutUint32 order v)) with 4%nat by (by destruct order).
  rewrite <- (app_nil_r (binary.PutUint32 order v)).
  by rewrite Uint32_PutUint32 by done.
Qed.

Lemma WriteUint_ReadUintRaw_roundtrip_aux64 order v rest :
  0 ≤ v < 2 ^ 64 →
  len (binary.PutUint64 order v) = 8 ∧
  ReadUintRaw (binary.PutUint64 order v ++ rest) order 8 = Ok (v, None, rest).
Proof.
  intros Hv. split; [apply len_PutUint64|].
  rewrite ReadUintRaw_supported by auto. unfold binary.Read.
  change (Z.to_nat 8) with 8%nat.
  replace 8%nat with (length (binary.PutUint64 order v)) at 1
    by (by destruct order).
  rewrite ReadFull_app.
  replace (length (binary.PutUint64 order v)) with 8%nat by (by destruct order).
  rewrite <- (app_nil_r (binary.PutUint64 order v)).
  by rewrite Uint64_PutUint64 by done.
Qed.

(** X4. [WriteUint] with width 4 or 8 never fails on an in-memory writer:
    it appends exactly that many bytes, and reading them back with the same
    order and width gives the value reduced modulo [2^(8 * ptrSize)], so
    for width 4 the high 32 bits are dropped without an error. With any
    other width, 2 included, it returns an error and writes nothing. *)
Theorem WriteUint_keeps_low_bits
    (writer rest : list byte) (order : ByteOrder) (ptrSize v : Z) :
  (ptrSize = 4 ∨ ptrSize = 8 →
   0 ≤ v < 2 ^ 64 →
   ∃ written,
     WriteUint writer order ptrSize v = (None, writer ++ written) ∧
     len written = ptrSize ∧
     ReadUintRaw (written ++ rest) order ptrSize
       = Ok (v `mod` 2 ^ (8 * ptrSize), None, rest)) ∧
  (ptrSize ≠ 4 → ptrSize ≠ 8 →
   WriteUint writer order ptrSize v
     = (Some (pointer_size_not_supported ptrSize), writer)).
Proof.
  split.
  - intros [-> | ->] Hv.
    + pose proof (Z.mod_pos_bound v (2 ^ 32) ltac:(lia)) as Hm.
      destruct (WriteUint_ReadUintRaw_roundtrip_aux32 order (v `mod` 2 ^ 32)
                  rest Hm) as [Hlen Hread].
      exists (binary.PutUint32 order (v `mod` 2 ^ 32)). done.
    + destruct (WriteUint_ReadUintRaw_roundtrip_aux64 order v rest Hv)
        as [Hlen Hread].
      exists (binary.PutUint64 order v).
      change (8 * 8) with 64. by rewrite Z.mod_small by done.
  - intros H4 H8. unfold WriteUint. by rewrite !decide_False by done.
Qed.

Lemma WriteUint_keeps_low_bits_witness :
  ∃ written,
    WriteUint [] LittleEndian 4 0x100000002 = (None, [] ++ written) ∧
    len written = 4 ∧
    ReadUintRaw (written ++ []) LittleEndian 4
      = Ok (0x100000002 `mod` 2 ^ (8 * 4), None, []).
Proof.
  apply (proj1 (WriteUint_keeps_low_bits [] [] LittleEndian 4 0x100000002));
    [by left | vm_compute; split; [discriminate | reflexivity]].
Defined.

(** X5. Decoding then encoding gives the bytes back: when [ReadUintRaw]
    with width 4 or 8 returns [v] without an error, [WriteUint] of [v] with
    the same order and width appends exactly the bytes that were consumed
    from the reader. *)
Theorem ReadUintRaw_WriteUint_roundtrip
    (reader reader' writer : list byte) (order : ByteOrder) (ptrSize v : Z) :
  ptrSize = 4 ∨ ptrSize = 8 →
  ReadUintRaw reader order ptrSize = Ok (v, None, reader') →
  ∃ consumed,
    reader = consumed ++ reader' ∧
    len consumed = ptrSize ∧
    WriteUint writer order ptrSize v = (None, writer ++ consumed).
Proof.
  intros Hp Hread.
  destruct (decide (ptrSize ≤ len reader)) as [Hl|Hl].
  2:{ rewrite ReadUintRaw_supported in Hread by tauto.
      rewrite binary_Read_short in Hread by (unfold len in Hl; lia).
      discriminate Hread. }
  remember (take (Z.to_nat ptrSize) reader) as bs eqn:Hbs.
  assert (len bs = ptrSize) as Hlen
    by (unfold len in *; rewrite Hbs, length_take; lia).
  rewrite <- (take_drop (Z.to_nat ptrSize) reader), <- Hbs in Hread.
  rewrite ReadUintRaw_front in Hread by tauto.
  injection Hread as <- <-.
  exists bs. split_and!; [by rewrite Hbs, take_drop | done |].
  clear Hbs Hl.
  unfold len in Hlen. destruct Hp as [-> | ->].
  - destruct bs as [|b0 [|b1 [|b2 [|b3 [|]]]]]; try (simpl in Hlen; lia).
    unfold WriteUint, binary.Write32, bytes.Write.
    rewrite decide_True by done.
    pose proof (le_value_range
      (match order with
       | LittleEndian => [b0; b1; b2; b3]
       | BigEndian => rev [b0; b1; b2; b3]
       end)) as Hr.
    replace (len _) with 4 in Hr by (by destruct order).
    rewrite Z.mod_small by exact Hr.
    change (rev [b0; b1; b2; b3]) with [b3; b2; b1; b0].
    by rewrite (PutUint32_le_value order b0 b1 b2 b3).
  - destruct bs as [|b0 [|b1 [|b2 [|b3 [|b4 [|b5 [|b6 [|b7 [|]]]]]]]]];
      try (simpl in Hlen; lia).
    unfold WriteUint, binary.Write64, bytes.Write.
    rewrite decide_False, decide_True by done.
    change (rev [b0; b1; b2; b3; b4; b5; b6; b7])
      with [b7; b6; b5; b4; b3; b2; b1; b0].
    by rewrite (PutUint64_le_value order b0 b1 b2 b3 b4 b5 b6 b7).
Qed.

Lemma ReadUintRaw_WriteUint_roundtrip_witness :
  ∃ consumed,
    [xde; xad; xbe; xef; x00] = consumed ++ [x00] ∧
    len consumed = 4 ∧
    WriteUint [x01] BigEndian 4 0xdeadbeef = (None, [x01] ++ consumed).
Proof.
  apply (ReadUintRaw_WriteUint_roundtrip
           [xde; xad; xbe; xef; x00] [x00] [x01] BigEndian 4 0xdeadbeef);
    [by left | vm_compute; reflexivity].
Defined.

(** ** ReadString: every outcome *)

Lemma bytes_ReadString_outcome (buf : list byte) (delim : byte) line err rest :
  bytes.ReadString buf delim = (line, err, rest) →
  (err = None ∧
   ∃ s, line = s ++ [delim] ∧ (delim ∉ s) ∧ buf = line ++ rest) ∨
  (err = Some io_EOF ∧ line = buf ∧ rest = [] ∧ delim ∉ buf).
Proof.
  revert line err rest.
  induction buf as [|b buf IH]; simpl; intros line err rest.
  { intros [= <- <- <-]. right. split_and!; try done. apply not_elem_of_nil. }
  destruct (Byte.eqb b delim) eqn:E.
  - apply Byte.byte_dec_bl in E as ->. intros [= <- <- <-]. left.
    split; [done|]. exists []. split_and!; try done. apply not_elem_of_nil.
  - apply Byte.eqb_false in E.
    destruct (bytes.ReadString buf delim) as [[line' err'] rest'].
    intros [= <- <- <-].
    destruct (IH line' err' rest' eq_refl)
      as [(-> & s & -> & Hs & ->) | (-> & -> & -> & Hs)].
    + left. split; [done|]. exists (b :: s). split_and!; try done.
      apply not_elem_of_cons. split; [congruence | done].
    + right. split_and!; try done.
      apply not_elem_of_cons. split; [congruence | done].
Qed.

(** X6. Every outcome of [ReadString]. Either it returns no error, and the
    buffer was the returned string, one zero byte and the bytes left in the
    buffer, the string itself holding no zero byte; or the buffer held no
    zero byte, and it returns the empty string with [io.EOF] and leaves the
    buffer empty, so the unterminated bytes are consumed. *)
Theorem ReadString_outcome (data s rest : list byte) (err : option error) :
  ReadString data = (s, err, rest) →
  (err = None ∧ data = s ++ x00 :: rest ∧ x00 ∉ s) ∨
  (err = Some io_EOF ∧ s = [] ∧ rest = [] ∧ x00 ∉ data).
Proof.
  unfold ReadString.
  destruct (bytes.ReadString data x00) as [[line err'] rest'] eqn:E.
  apply bytes_ReadString_outcome in E
    as [(-> & s' & -> & Hs & ->) | (-> & -> & -> & Hs)].
  - intros [= <- <- <-]. left. rewrite length_app. simpl.
    replace (length s' + 1 - 1)%nat with (length s') by lia.
    rewrite take_app_length. split_and!; try done.
    by rewrite <- app_assoc.
  - intros [= <- <- <-]. by right.
Qed.

Lemma ReadString_outcome_witness :
  (None = @None error ∧ [x61; x00; x62] = [x61] ++ x00 :: [x62] ∧ x00 ∉ [x61]) ∨
  (None = Some io_EOF ∧ [x61] = [] ∧ [x62] = [] ∧ x00 ∉ [x61; x00; x62]).
Proof.
  apply (ReadString_outcome [x61; x00; x62] [x61] [x62] None).
  vm_compute. reflexivity.
Defined.

(** ** ReadDwarfLengthVersion: ranges and locality *)

Lemma Uint32_range order b v :
  binary.Uint32 order b = Ok v → 0 ≤ v < 2 ^ 32.
Proof.
  destruct b as [|b0 [|b1 [|b2 [|b3 b]]]]; try discriminate.
  rewrite Uint32_value. intros [= <-].
  by destruct order; apply (le_value_range [_; _; _; _]).
Qed.

Lemma Uint64_range order b v :
  binary.Uint64 order b = Ok v → 0 ≤ v < 2 ^ 64.
Proof.
  destruct b as [|b0 [|b1 [|b2 [|b3 [|b4 [|b5 [|b6 [|b7 b]]]]]]]];
    try discriminate.
  rewrite Uint64_value. intros [= <-].
  by destruct order; apply (le_value_range [_; _; _; _; _; _; _; _]).
Qed.

Lemma version_byteOrder_range x y :
  0 ≤ x < 256 → 0 ≤ y < 256 →
  0 ≤ (version_byteOrder x y).1 < 256 ∧
  ((version_byteOrder x y).2 = BigEndian → (version_byteOrder x y).1 ≠ 0).
Proof.
  intros Hx Hy. unfold version_byteOrder.
  repeat case_decide; simpl; split; try lia; try discriminate; tauto.
Qed.

Lemma ReadDwarfLengthVersion_bounded (data : list byte) :
  ∃ length dwarf64 version byteOrder,
    ReadDwarfLengthVersion data = Ok (length, dwarf64, version, byteOrder) ∧
    0 ≤ version < 256 ∧
    0 ≤ length < (if dwarf64 : bool then 2 ^ 64 else 2 ^ 32) ∧
    (byteOrder = BigEndian → version ≠ 0).
Proof.
  destruct (decide (len data < 4)) as [Hs|Hs].
  { rewrite ReadDwarfLengthVersion_short by done.
    eexists _, _, _, _. split; [done|]. split_and!; [lia..|done]. }
  destruct (Uint32_in_range LittleEndian data) as [lf Hlf]; [lia|].
  destruct (decide (voff_of lf + 1 >= len data)) as [Hv|Hv].
  { erewrite ReadDwarfLengthVersion_no_version by done.
    eexists _, _, _, _. split; [done|]. split_and!; [lia..|done]. }
  assert (0 ≤ voff_of lf) by (unfold voff_of; case_decide; lia).
  destruct (index_in_range data (voff_of lf)) as [x Hx]; [lia|].
  destruct (index_in_range data (voff_of lf + 1)) as [y Hy]; [lia|].
  rewrite (ReadDwarfLengthVersion_version _ _ _ _ Hlf Hx Hy).
  apply index_range in Hx, Hy.
  destruct (version_byteOrder_range x y Hx Hy) as [Hver Hbo].
  unfold voff_of in Hv. case_decide.
  - rewrite slice_from_in_range by lia. simpl.
    destruct (Uint64_in_range (version_byteOrder x y).2 (drop (Z.to_nat 4) data))
      as [v Hv64]; [rewrite len_drop; lia|].
    rewrite Hv64. simpl. apply Uint64_range in Hv64.
    eexists _, _, _, _. split; [done|].
    rewrite bool_decide_eq_true_2 by done. done.
  - destruct (Uint32_in_range (version_byteOrder x y).2 data) as [v Hv32]; [lia|].
    rewrite Hv32. simpl. apply Uint32_range in Hv32.
    eexists _, _, _, _. split; [done|].
    rewrite bool_decide_eq_false_2 by done. done.
Qed.

(** X7. [ReadDwarfLengthVersion] never panics, whatever the input. The
    version it returns fits a byte, the length is below [2^32] for 32-bit
    encoding and below [2^64] for 64-bit encoding, and big-endian is only
    reported together with a non-zero version. *)
Theorem ReadDwarfLengthVersion_ranges (data : list byte) :
  ∃ length dwarf64 version byteOrder,
    ReadDwarfLengthVersion data = Ok (length, dwarf64, version, byteOrder) ∧
    0 ≤ version < 256 ∧
    0 ≤ length < (if dwarf64 : bool then 2 ^ 64 else 2 ^ 32) ∧
    (byteOrder = BigEndian → version ≠ 0).
Proof. apply ReadDwarfLengthVersion_bounded. Qed.

Lemma Uint32_app order b extra :
  4 ≤ len b → binary.Uint32 order (b ++ extra) = binary.Uint32 order b.
Proof.
  destruct b as [|b0 [|b1 [|b2 [|b3 b]]]]; unfold len; simpl; try lia. done.
Qed.

Lemma Uint64_app order b extra :
  8 ≤ len b → binary.Uint64 order (b ++ extra) = binary.Uint64 order b.
Proof.
  destruct b as [|b0 [|b1 [|b2 [|b3 [|b4 [|b5 [|b6 [|b7 b]]]]]]]];
    unfold len; simpl; try lia. done.
Qed.

Lemma index_app_l b extra i :
  0 ≤ i < len b → index (b ++ extra) i = index b i.
Proof.
  intros Hi. unfold index. rewrite !decide_True by lia.
  rewrite lookup_app_l; [done | unfold len in Hi; lia].
Qed.

Lemma len_app {A} (a b : list A) : len (a ++ b) = len a + len b.
Proof. unfold len. rewrite length_app. lia. Qed.

Lemma ReadDwarfLengthVersion_app (data extra : list byte) lengthfield :
  binary.Uint32 LittleEndian data = Ok lengthfield →
  voff_of lengthfield + 1 < len data →
  ReadDwarfLengthVersion (data ++ extra) = ReadDwarfLengthVersion data.
Proof.
  intros Hlf Hv.
  apply Uint32_Ok_inv in Hlf as H4.
  assert (0 ≤ voff_of lengthfield) by (unfold voff_of; case_decide; lia).
  destruct (index_in_range data (voff_of lengthfield)) as [x Hx]; [lia|].
  destruct (index_in_range data (voff_of lengthfield + 1)) as [y Hy]; [lia|].
  rewrite (ReadDwarfLengthVersion_version data _ _ _ Hlf Hx Hy).
  rewrite (ReadDwarfLengthVersion_version (data ++ extra) lengthfield x y).
  - unfold voff_of in Hv. case_decide.
    + rewrite !slice_from_in_range by (rewrite ?len_app; pose proof (len_nonneg extra); lia).
      simpl. rewrite drop_app_le by (unfold len in Hv; lia).
      by rewrite Uint64_app by (rewrite len_drop; lia).
    + by rewrite Uint32_app by lia.
  - by rewrite Uint32_app by lia.
  - by rewrite index_app_l by lia.
  - by rewrite index_app_l by lia.
Qed.

(** X8. Once the version field is within the buffer, the result of
    [ReadDwarfLengthVersion] depends on nothing behind it: appending bytes
    to the buffer leaves length, encoding, version and byte order
    unchanged. *)
Theorem ReadDwarfLengthVersion_ignores_payload
    (data extra : list byte) (lengthfield voff : Z) :
  binary.Uint32 LittleEndian data = Ok lengthfield →
  voff = (if decide (lengthfield = 0xFFFFFFFF) then 12 else 4) →
  voff + 1 < len data →
  ReadDwarfLengthVersion (data ++ extra) = ReadDwarfLengthVersion data.
Proof. intros Hlf ->. by apply ReadDwarfLengthVersion_app. Qed.

Lemma ReadDwarfLengthVersion_ignores_payload_witness :
  ReadDwarfLengthVersion ([x07; x00; x00; x00; x04; x00] ++ [x01; x02])
    = ReadDwarfLengthVersion [x07; x00; x00; x00; x04; x00].
Proof.
  apply (ReadDwarfLengthVersion_ignores_payload
           [x07; x00; x00; x00; x04; x00] [x01; x02] 7 4);
    vm_compute; reflexivity.
Defined.

(** ** ReadUnitVersions: what a returned map looks like *)

Lemma ReadDwarfLengthVersion_default_4_5 (B : list byte) :
  4 ≤ len B ≤ 5 →
  ReadDwarfLengthVersion B = Ok (0, false, 0, LittleEndian).
Proof.
  intros HB. destruct (Uint32_in_range LittleEndian B) as [lf Hlf]; [lia|].
  apply (ReadDwarfLengthVersion_no_version B lf Hlf).
  unfold voff_of. case_decide; lia.
Qed.

(** X9. No input of 1 to 5 bytes can be scanned: with fewer than 4 bytes
    the scan panics on the slice [data[4:]], and with 4 or 5 bytes
    [ReadDwarfLengthVersion] falls back to version 0, so that the scan
    panics on the unit-type index [data[2]]. A non-empty input on which
    the scan returns therefore has at least 6 bytes. *)
Theorem ReadUnitVersions_needs_six_bytes (B : list byte) :
  (1 ≤ len B ≤ 3 →
   ReadUnitVersions B = Panic slice_bounds_out_of_range) ∧
  (4 ≤ len B ≤ 5 →
   ReadUnitVersions B = Panic index_out_of_range) ∧
  (∀ m, ReadUnitVersions B = Ok m → B = [] ∨ 6 ≤ len B).
Proof.
  assert (1 ≤ len B → B ≠ []) as Hne
    by (intros ? ->; unfold len in *; simpl in *; lia).
  assert (1 ≤ len B ≤ 3 →
          ReadUnitVersions B = Panic slice_bounds_out_of_range) as H13.
  { intros HB. unfold ReadUnitVersions.
    rewrite ReadUnitVersions_loop_step by (apply Hne; lia).
    rewrite (unit_step_eq B 0 ∅ 0 false 0 LittleEndian)
      by (apply ReadDwarfLengthVersion_short; lia).
    simpl. by rewrite slice_from_out_of_range by lia. }
  assert (4 ≤ len B ≤ 5 →
          ReadUnitVersions B = Panic index_out_of_range) as H45.
  { intros HB. unfold ReadUnitVersions.
    rewrite ReadUnitVersions_loop_step by (apply Hne; lia).
    rewrite (unit_step_eq B 0 ∅ 0 false 0 LittleEndian)
      by (by apply ReadDwarfLengthVersion_default_4_5).
    simpl. rewrite slice_from_in_range by lia. simpl.
    rewrite headerSize_default by lia.
    rewrite (proj2 (index_out_of_range_iff _ 2)) by (rewrite len_drop; lia).
    done. }
  split_and!; [done | done |].
  intros m Hm. pose proof (len_nonneg B).
  destruct (decide (len B = 0)) as [H0|H0].
  { left. destruct B; [done | unfold len in H0; simpl in H0; lia]. }
  right. destruct (decide (len B ≤ 3)).
  { rewrite H13 in Hm by lia. discriminate Hm. }
  destruct (decide (len B ≤ 5)).
  { rewrite H45 in Hm by lia. discriminate Hm. }
  lia.
Qed.

Lemma ReadUnitVersions_needs_six_bytes_witness :
  ReadUnitVersions [x00; x00; x00; x00; x04] = Panic index_out_of_range.
Proof.
  apply (proj1 (proj2 (ReadUnitVersions_needs_six_bytes
                         [x00; x00; x00; x00; x04]))).
  vm_compute. split; discriminate.
Defined.

Lemma unit_step_consumes data off r data' off' r' :
  unit_step data off r = Ok (data', off', r') →
  len data' ≤ len data - 4 ∧
  off' = Offset (off + (len data - len data')) ∧
  ∃ k v, r' = <[k := v]> r ∧ 0 ≤ v < 256.
Proof.
  intros Hs. apply unit_step_Ok_inv in Hs
    as (l & d & v & o & hs & Hr & Hlfs & Hhs & Hl & Hlen' & -> & ->).
  assert (4 ≤ length_field_size d) by (destruct d; simpl; lia).
  split_and!.
  - lia.
  - f_equal. lia.
  - eexists _, v. split; [done|].
    destruct (ReadDwarfLengthVersion_bounded data)
      as (l' & d' & v' & o' & Hr' & Hv & _).
    rewrite Hr in Hr'. by injection Hr' as _ _ -> _.
Qed.

(** X10. A returned map has at most one entry for every 4 bytes of input,
    it is empty exactly for the empty input, and each of its values is a
    byte (a version between 0 and 255). *)
Theorem ReadUnitVersions_map_shape (B : list byte) (m : gmap Z Z) :
  ReadUnitVersions B = Ok m →
  4 * Z.of_nat (size m) ≤ len B ∧
  (m = ∅ ↔ B = []) ∧
  (∀ k v, m !! k = Some v → 0 ≤ v < 256).
Proof.
  intros Hm. unfold ReadUnitVersions in Hm.
  set (P := λ (data : list byte) (off : Z) (r : gmap Z Z),
       4 * Z.of_nat (size r) + len data ≤ len B ∧
       ((data = B ∧ r = ∅) ∨ r ≠ ∅) ∧
       (∀ k v, r !! k = Some v → 0 ≤ v < 256)).
  assert (∀ data off r data' off' r',
            data ≠ [] → P data off r →
            unit_step data off r = Ok (data', off', r') → P data' off' r')
    as Hstep.
  { intros data off r data' off' r' Hne (Hs & He & Hv) Hstep.
    apply unit_step_consumes in Hstep as (Hlen & _ & k & v & -> & Hvr).
    split_and!.
    - pose proof (map_size_insert k v r) as Hi.
      destruct (r !! k); simpl in Hi; lia.
    - right. apply insert_non_empty.
    - intros k' v'. rewrite lookup_insert. case_decide; [|apply Hv].
      by intros [= <-]. }
  assert (P B 0 ∅) as Hinit.
  { split_and!.
    - rewrite map_size_empty. lia.
    - by left.
    - by intros ???%lookup_empty_Some. }
  destruct (ReadUnitVersions_loop_invariant P Hstep B 0 ∅ m Hinit Hm)
    as (off' & Hsize & Hempty & Hval).
  split_and!; [unfold len in *; simpl in *; lia| |done]. split.
  - intros ->. by destruct Hempty as [[<- _]|?].
  - intros ->. rewrite ReadUnitVersions_loop_nil in Hm. by injection Hm.
Qed.

Lemma ReadUnitVersions_map_shape_witness :
  4 * Z.of_nat (size ({[ 11 := 4 ]} : gmap Z Z)) ≤ len scenario2 ∧
  (({[ 11 := 4 ]} : gmap Z Z) = ∅ ↔ scenario2 = []) ∧
  (∀ k v, ({[ 11 := 4 ]} : gmap Z Z) !! k = Some v → 0 ≤ v < 256).
Proof.
  apply (ReadUnitVersions_map_shape scenario2 {[ 11 := 4 ]}).
  vm_compute. reflexivity.
Defined.

(** ** ReadUnitVersions: scanning unit by unit *)

Lemma headerSize_app version secoffsz data rest hs :
  headerSize version secoffsz data = Ok hs →
  headerSize version secoffsz (data ++ rest) = Ok hs.
Proof.
  unfold headerSize. case_decide; [done|].
  intros (t & Ht & Hhs)%bind_Ok_inv.
  apply index_Ok_inv in Ht as Hr. destruct Hr as [Hr _].
  by rewrite index_app_l, Ht by done.
Qed.

Lemma whole_unit_bounds u key version :
  whole_unit u key version → 6 ≤ len u ∧ 4 ≤ key ≤ 40.
Proof.
  intros (lf & l & d & o & hs & Hlf & Hv & Hr & Hlen & Hhs & ->).
  apply headerSize_bounds in Hhs as [Hhs _].
  split.
  - unfold voff_of in Hv. case_decide; lia.
  - destruct d; simpl; lia.
Qed.

Lemma ReadUnitVersions_loop_whole_unit u key version rest off r :
  whole_unit u key version →
  ReadUnitVersions_loop (u ++ rest) off r
    = ReadUnitVersions_loop rest (Offset (off + len u))
        (<[Offset (off + key) := version]> r).
Proof.
  intros Hu. pose proof (whole_unit_bounds _ _ _ Hu) as [H6 _].
  destruct Hu as (lf & l & d & o & hs & Hlf & Hv & Hr & Hlen & Hhs & ->).
  assert (0 ≤ l) as Hl.
  { destruct (ReadDwarfLengthVersion_bounded u)
      as (l' & d' & v' & o' & Hr' & _ & Hl & _).
    rewrite Hr in Hr'. injection Hr' as -> _ _ _. lia. }
  assert (4 ≤ length_field_size d ≤ 12) by (destruct d; simpl; lia).
  rewrite ReadUnitVersions_loop_step.
  2:{ intros Hnil. apply (f_equal len) in Hnil. rewrite len_app in Hnil.
      pose proof (len_nonneg rest). unfold len at 3 in Hnil. simpl in Hnil.
      lia. }
  rewrite (unit_step_eq _ _ _ l d version o)
    by (by rewrite (ReadDwarfLengthVersion_app u rest lf)).
  pose proof (len_nonneg rest).
  rewrite slice_from_in_range by (rewrite len_app; lia). simpl.
  rewrite drop_app_le by (unfold len in *; lia).
  rewrite (headerSize_app _ _ _ rest hs Hhs). simpl.
  rewrite slice_from_in_range by (rewrite len_app, len_drop; lia). simpl.
  rewrite drop_app_length'
    by (pose proof (len_drop u (length_field_size d));
        unfold len in *; rewrite length_drop in *; lia).
  f_equal; [f_equal; lia|]. do 2 f_equal. lia.
Qed.

(** X11. Scanning a section that begins with a whole unit [u] is scanning
    what follows it, with the offset advanced by the size of [u] and the
    entry of [u] added to the map; this holds whatever follows [u], and
    whatever offset and map the scan has reached. *)
Theorem ReadUnitVersions_unit_then_rest
    (u rest : list byte) (key version off : Z) (r : gmap Z Z) :
  whole_unit u key version →
  ReadUnitVersions_loop (u ++ rest) off r
    = ReadUnitVersions_loop rest (Offset (off + len u))
        (<[Offset (off + key) := version]> r).
Proof. apply ReadUnitVersions_loop_whole_unit. Qed.

Lemma whole_unit_scenario2 : whole_unit scenario2 11 4.
Proof.
  exists 7, 7, false, LittleEndian, 7. split_and!; vm_compute; reflexivity.
Defined.

Lemma whole_unit_scenario4 : whole_unit scenario4 12 5.
Proof.
  exists 8, 8, false, LittleEndian, 8. split_and!; vm_compute; reflexivity.
Defined.

Lemma ReadUnitVersions_unit_then_rest_witness :
  ReadUnitVersions_loop (scenario2 ++ scenario4) 0 ∅
    = ReadUnitVersions_loop scenario4 (Offset (0 + len scenario2))
        (<[Offset (0 + 11) := 4]> ∅).
Proof.
  apply (ReadUnitVersions_unit_then_rest scenario2 scenario4 11 4 0 ∅).
  exact whole_unit_scenario2.
Defined.

Lemma ReadUnitVersions_loop_whole_units us off r :
  Forall (λ x, whole_unit x.1.1 x.1.2 x.2) us →
  ReadUnitVersions_loop (units_bytes us) off r = Ok (units_map us off r).
Proof.
  intros Hus. revert off r.
  induction Hus as [|[[u key] version] us Hu _ IH]; intros off r.
  - apply ReadUnitVersions_loop_nil.
  - unfold units_bytes. simpl. fold (units_bytes us).
    rewrite (ReadUnitVersions_loop_whole_unit u key version) by done.
    apply IH.
Qed.

(** X12. A section made of whole units, one after the other, is scanned
    without a panic, and the returned map is the one that assigns, unit by
    unit, the version to the offset of the end of the unit's header. *)
Theorem ReadUnitVersions_whole_units (us : list (list byte * Z * Z)) :
  Forall (λ x, whole_unit x.1.1 x.1.2 x.2) us →
  ReadUnitVersions (units_bytes us) = Ok (units_map us 0 ∅).
Proof. apply ReadUnitVersions_loop_whole_units. Qed.

Lemma ReadUnitVersions_whole_units_witness :
  ReadUnitVersions (units_bytes [(scenario2, 11, 4); (scenario4, 12, 5)])
    = Ok (units_map [(scenario2, 11, 4); (scenario4, 12, 5)] 0 ∅).
Proof.
  apply (ReadUnitVersions_whole_units
           [(scenario2, 11, 4); (scenario4, 12, 5)]).
  repeat constructor; [exact whole_unit_scenario2 | exact whole_unit_scenario4].
Defined.

Lemma units_bytes_cons u key version us :
  units_bytes ((u, key, version) :: us) = u ++ units_bytes us.
Proof. reflexivity. Qed.

(** The map of a sequence of whole units whose headers fit in them, laid
    out from [off] on without wrap-around, above every key of [r]. *)
Lemma units_map_spec us off r :
  Forall (λ x, whole_unit x.1.1 x.1.2 x.2 ∧ x.1.2 ≤ len x.1.1) us →
  0 ≤ off → off + len (units_bytes us) < 2 ^ 32 →
  (∀ k v, r !! k = Some v → k ≤ off) →
  (∀ k, k ≤ off → units_map us off r !! k = r !! k) ∧
  size (units_map us off r) = (size r + length us)%nat ∧
  (∀ k v, units_map us off r !! k = Some v →
          r !! k = Some v ∨ off + 4 ≤ k ≤ off + len (units_bytes us)) ∧
  (∀ i u key version, us !! i = Some (u, key, version) →
     units_map us off r !! (off + len (units_bytes (take i us)) + key)
       = Some version).
Proof.
  intros Hus. revert off r.
  induction Hus as [|[[u key] version] us [Hu Hkey] _ IH];
    intros off r Hoff Hend Hr.
  { simpl. split_and!; [done | lia | by left | done]. }
  simpl in Hu, Hkey. rewrite units_bytes_cons, len_app in Hend.
  pose proof (whole_unit_bounds _ _ _ Hu) as [H6 [Hk4 _]].
  pose proof (len_nonneg (units_bytes us)) as Hnn.
  simpl units_map.
  rewrite (Offset_small (off + len u)), (Offset_small (off + key)) by lia.
  assert (r !! (off + key) = None) as Hfresh.
  { destruct (r !! (off + key)) as [v|] eqn:E; [|done].
    apply Hr in E. lia. }
  destruct (IH (off + len u) (<[off + key := version]> r))
    as (IH1 & IH2 & IH3 & IH4); [lia | lia | |].
  { intros k v. rewrite lookup_insert. case_decide; [intros _; lia|].
    intros Hk%Hr. lia. }
  split_and!.
  - intros k Hk. rewrite IH1 by lia. by rewrite lookup_insert_ne by lia.
  - rewrite IH2, map_size_insert_None by done. simpl. lia.
  - intros k v Hkv. rewrite units_bytes_cons, len_app.
    apply IH3 in Hkv as [Hkv | Hkv]; [|right; lia].
    rewrite lookup_insert in Hkv. case_decide; [right; lia | by left].
  - intros [|i] u' key' version' Hi.
    + injection Hi as -> -> ->. simpl take.
      change (len (units_bytes [])) with 0.
      rewrite Z.add_0_r, IH1 by lia. apply lookup_insert_eq.
    + simpl in Hi. simpl take. rewrite units_bytes_cons, len_app.
      specialize (IH4 i u' key' version' Hi).
      by replace (off + (len u + len (units_bytes (take i us))) + key')
        with (off + len u + len (units_bytes (take i us)) + key') by lia.
Qed.

(** X13. For a section made of whole units in each of which the header
    fits (the key of the unit is at most its size), and shorter than
    [2^32] bytes, the scan returns a map with exactly one entry per unit:
    the offset of the end of each unit's header is mapped to the version of
    that unit, and every key lies between 4 and the size of the section. *)
Theorem ReadUnitVersions_well_formed_section
    (us : list (list byte * Z * Z)) :
  Forall (λ x, whole_unit x.1.1 x.1.2 x.2 ∧ x.1.2 ≤ len x.1.1) us →
  len (units_bytes us) < 2 ^ 32 →
  ∃ m,
    ReadUnitVersions (units_bytes us) = Ok m ∧
    size m = length us ∧
    (∀ k v, m !! k = Some v → 4 ≤ k ≤ len (units_bytes us)) ∧
    (∀ i u key version, us !! i = Some (u, key, version) →
       m !! (len (units_bytes (take i us)) + key) = Some version).
Proof.
  intros Hus Hlen. exists (units_map us 0 ∅).
  destruct (units_map_spec us 0 ∅ Hus) as (_ & Hsize & Hkeys & Hget);
    [lia | lia | by intros ???%lookup_empty_Some |].
  split_and!.
  - apply ReadUnitVersions_loop_whole_units.
    eapply Forall_impl; [exact Hus|]. by intros ? [? _].
  - by rewrite Hsize, map_size_empty.
  - intros k v Hkv. apply Hkeys in Hkv as [Hkv|Hkv]; [|lia].
    by apply lookup_empty_Some in Hkv.
  - intros i u key version Hi. by rewrite <- (Hget i u key version Hi).
Qed.

Lemma ReadUnitVersions_well_formed_section_witness :
  ∃ m,
    ReadUnitVersions (units_bytes [(scenario2, 11, 4); (scenario4, 12, 5)])
      = Ok m ∧
    size m = length [(scenario2, 11, 4); (scenario4, 12, 5)] ∧
    (∀ k v, m !! k = Some v →
       4 ≤ k ≤ len (units_bytes [(scenario2, 11, 4); (scenario4, 12, 5)])) ∧
    (∀ i u key version,
       [(scenario2, 11, 4); (scenario4, 12, 5)] !! i = Some (u, key, version) →
       m !! (len (units_bytes
                    (take i [(scenario2, 11, 4); (scenario4, 12, 5)])) + key)
         = Some version).
Proof.
  apply (ReadUnitVersions_well_formed_section
           [(scenario2, 11, 4); (scenario4, 12, 5)]).
  - repeat constructor;
      [exact whole_unit_scenario2 | vm_compute; discriminate
      | exact whole_unit_scenario4 | vm_compute; discriminate].
  - vm_compute. reflexivity.
Defined.

(** ** One pass of the loop *)

(** X14. A pass of the loop that does not panic consumes at least 4 bytes
    of the data, advances the offset by exactly the number of bytes it
    consumed (modulo [2^32]), and adds or overwrites exactly one entry of
    the map, whose value is a byte. *)
Theorem unit_step_lockstep
    (data data' : list byte) (off off' : Z) (r r' : gmap Z Z) :
  unit_step data off r = Ok (data', off', r') →
  len data' ≤ len data - 4 ∧
  off' = Offset (off + (len data - len data')) ∧
  ∃ k v, r' = <[k := v]> r ∧ 0 ≤ v < 256.
Proof. apply unit_step_consumes. Qed.

Lemma unit_step_lockstep_witness :
  len (drop 7 unit_type_zero_then_dwarf4)
    ≤ len unit_type_zero_then_dwarf4 - 4 ∧
  7 = Offset (0 + (len unit_type_zero_then_dwarf4
                   - len (drop 7 unit_type_zero_then_dwarf4))) ∧
  ∃ k v, ({[ 4 := 5 ]} : gmap Z Z) = <[k := v]> ∅ ∧ 0 ≤ v < 256.
Proof.
  apply (unit_step_lockstep unit_type_zero_then_dwarf4
           (drop 7 unit_type_zero_then_dwarf4) 0 7 ∅ {[ 4 := 5 ]}).
  vm_compute. reflexivity.
Defined.

(** ** The decoded length as a number *)

(** X15. When the version field is within the buffer, the length returned
    by [ReadDwarfLengthVersion] is the number written by the bytes of the
    length field (the leading 4 bytes, or the 8 bytes after the sentinel)
    read in the detected byte order: least significant byte first for
    little-endian, most significant byte first for big-endian. *)
Theorem ReadDwarfLengthVersion_length_value
    (data : list byte) (lengthfield voff length version : Z)
    (dwarf64 : bool) (byteOrder : ByteOrder) :
  binary.Uint32 LittleEndian data = Ok lengthfield →
  voff = (if decide (lengthfield = 0xFFFFFFFF) then 12 else 4) →
  voff + 1 < len data →
  ReadDwarfLengthVersion data = Ok (length, dwarf64, version, byteOrder) →
  let field := if dwarf64 then take 8 (drop 4 data) else take 4 data in
  length = le_value (match byteOrder with
                     | LittleEndian => field
                     | BigEndian => rev field
                     end).
Proof.
  intros Hlf -> Hv Hr. fold (voff_of lengthfield) in Hv.
  assert (0 ≤ voff_of lengthfield) by (unfold voff_of; case_decide; lia).
  destruct (index_in_range data (voff_of lengthfield)) as [x Hx]; [lia|].
  destruct (index_in_range data (voff_of lengthfield + 1)) as [y Hy]; [lia|].
  rewrite (ReadDwarfLengthVersion_version _ _ _ _ Hlf Hx Hy) in Hr.
  apply bind_Ok_inv in Hr as (l' & Hl & [= <- <- _ <-]).
  unfold voff_of in Hv. case_decide as Hs.
  - rewrite bool_decide_eq_true_2 by done. simpl.
    rewrite slice_from_in_range in Hl by lia. simpl in Hl.
    change (Z.to_nat 4) with 4%nat in Hl.
    assert (8 ≤ length (drop 4 data))%nat as H8
      by (rewrite length_drop; unfold len in Hv; lia).
    destruct (drop 4 data)
      as [|b0 [|b1 [|b2 [|b3 [|b4 [|b5 [|b6 [|b7 tl]]]]]]]];
      simpl in H8; try lia.
    rewrite Uint64_value in Hl. injection Hl as <-.
    by destruct (version_byteOrder x y).2.
  - rewrite bool_decide_eq_false_2 by done. simpl.
    assert (4 ≤ length data)%nat as H4 by (unfold len in Hv; lia).
    destruct data as [|b0 [|b1 [|b2 [|b3 tl]]]]; simpl in H4; try lia.
    rewrite Uint32_value in Hl. injection Hl as <-.
    by destruct (version_byteOrder x y).2.
Qed.

Lemma ReadDwarfLengthVersion_length_value_witness :
  let field := if false then take 8 (drop 4 scenario6) else take 4 scenario6 in
  6 = le_value (match BigEndian with
                | LittleEndian => field
                | BigEndian => rev field
                end).
Proof.
  apply (ReadDwarfLengthVersion_length_value
           scenario6 0x06000000 4 6 3 false BigEndian);
    vm_compute; reflexivity.
Defined.
